(** * hata: the rate limiter of [hata/discord/ratelimit.py]

    A shallow embedding of the cooldown ledger ([RatelimitUnit]), the rate
    group descriptor ([RatelimitGroup]), the handler ([RatelimitHandler]) and
    the proxy ([RatelimitProxy]), with the properties of the specification
    that concern them.

    Conventions.
    - Python integers are [Z].
    - Timestamps and delays (Python floats, in seconds) are exact rationals
      [Q] in the handler, which stores, adds and compares them. The decisions
      of the ledger at its tolerance depend on the rounding of the doubles;
      [Ledger64] gives [update_with] on binary64 floats.
    - An object attribute that may be [None] is an [option].
    - A method that mutates [self] is a computation in the monad [M] below:
      it takes the state before the call and gives back either a value and
      the state after it, or the exception raised and the state at the point
      where it was raised. *)

From Stdlib Require Import ZArith QArith Qabs Qminmax Lqa List Bool Lia FinFun.
From Stdlib Require Floats.
Import ListNotations.

Local Open Scope Z_scope.

(** ** Module constants (ratelimit.py, lines 54-58) *)

Definition GLOBALLY_LIMITED : Z := 0x4000000000000000.
(** [RATELIMIT_DROP_ROUND = 0.20]: the number of the double that Python reads
    the literal as, 3602879701896397 / 2^54. *)
Definition RATELIMIT_DROP_ROUND : Q := 3602879701896397 # 18014398509481984.
Definition MAXIMAL_UNLIMITED_PARARELLITY : Z := -50.
Definition UNLIMITED_SIZE_VALUE : Z := -10000.
Definition NO_SPECIFIC_RATELIMITER : Z := 0.

(** [a < b] on rationals, as a boolean. *)
Definition Qltb (a b : Q) : bool :=
  (Qnum a * QDen b <? Qnum b * QDen a)%Z.

(** ** The cooldown ledger: class [RatelimitUnit] *)

(** The ledger as the handler keeps it, its timestamps exact. *)
Module Ledger.

(** A node of the chain: [drop], [allocates] and the [next] node or [None]. *)
Unset Elimination Schemes.
Inductive RatelimitUnit : Type :=
  mkUnit { drop : Q; allocates : Z; next : option RatelimitUnit }.
Set Elimination Schemes.

(** [RatelimitUnit.__init__(drop, allocates)] *)
Definition new_unit (d : Q) (a : Z) : RatelimitUnit := mkUnit d a None.

(** The [while True] loop of [update_with], run from the node [last]: the
    result is [last] as the loop leaves it (its successors are rebuilt where
    the loop assigns [last.next], [actual.drop] or [actual.allocates]). *)
Fixpoint walk (d : Q) (a : Z) (last : RatelimitUnit) : RatelimitUnit :=
  let new_drop_max := (d + RATELIMIT_DROP_ROUND)%Q in
  let new_drop_min := (d - RATELIMIT_DROP_ROUND)%Q in
  match last with
  | mkUnit ld la None =>
      (* actual is None: append a new tail *)
      mkUnit ld la (Some (mkUnit d a None))
  | mkUnit ld la (Some actual) =>
      let actual_drop := drop actual in
      if Qltb new_drop_max actual_drop then
        mkUnit ld la (Some (mkUnit d a (Some actual)))
      else if Qltb actual_drop new_drop_min then
        mkUnit ld la (Some (walk d a actual))
      else
        mkUnit ld la
          (Some (mkUnit (if Qltb d actual_drop then d else actual_drop)
                        (allocates actual + a)
                        (next actual)))
  end.

(** [RatelimitUnit.update_with(self, drop, allocates)]: the result is the
    head node [self] after the call. *)
Definition update_with (self : RatelimitUnit) (d : Q) (a : Z) : RatelimitUnit :=
  let actual_drop := drop self in
  let new_drop_max := (d + RATELIMIT_DROP_ROUND)%Q in
  if Qltb new_drop_max actual_drop then
    let new := mkUnit (drop self) (allocates self) (next self) in
    mkUnit d a (Some new)
  else
    let new_drop_min := (d - RATELIMIT_DROP_ROUND)%Q in
    if Qltb actual_drop new_drop_min then
      walk d a self
    else
      mkUnit (if Qltb d actual_drop then d else actual_drop)
             (allocates self + a)
             (next self).

(** The chain from a node on, as the list of its [(drop, allocates)] pairs. *)
Fixpoint to_list (u : RatelimitUnit) : list (Q * Z) :=
  match u with
  | mkUnit d a None => [(d, a)]
  | mkUnit d a (Some n) => (d, a) :: to_list n
  end.

Definition chain (drops : option RatelimitUnit) : list (Q * Z) :=
  match drops with
  | None => []
  | Some u => to_list u
  end.

(** The loop of [RatelimitHandler.count_drops], from the node [u] on with the
    running total [result]. *)
Fixpoint count_from (u : RatelimitUnit) (result : Z) : Z :=
  match u with
  | mkUnit _ a None => result + a
  | mkUnit _ a (Some n) => count_from n (result + a)
  end.

(** Induction along the [next] pointers. *)
Fixpoint unit_chain_ind (P : RatelimitUnit -> Prop)
    (Hlast : forall d a, P (mkUnit d a None))
    (Hnext : forall d a n, P n -> P (mkUnit d a (Some n)))
    (u : RatelimitUnit) : P u :=
  match u with
  | mkUnit d a None => Hlast d a
  | mkUnit d a (Some n) => Hnext d a n (unit_chain_ind P Hlast Hnext n)
  end.

(** *** What the specification says of the ledger *)

(** Expiries ascend along the chain. *)
Fixpoint ascending (l : list (Q * Z)) : Prop :=
  match l with
  | [] => True
  | (x, _) :: tl =>
      match tl with
      | [] => True
      | (y, _) :: _ => (x < y)%Q /\ ascending tl
      end
  end.


(** Neighbours lie more than [g] apart: [g = 0] is [ascending], the
    tolerance is [coalesced]. *)
Definition above (g x : Q) (l : list (Q * Z)) : Prop :=
  match l with
  | [] => True
  | (y, _) :: _ => (x + g < y)%Q
  end.


(** [x] is within the tolerance of [d]. *)
Definition within (x d : Q) : bool :=
  negb (Qltb RATELIMIT_DROP_ROUND (Qabs (x - d))).

(** [x] exceeds [d] by more than the tolerance. *)
Definition exceeds (x d : Q) : bool :=
  Qltb RATELIMIT_DROP_ROUND (x - d).

(** The insertion as the specification words it, on the list of pairs: merge
    into the first node within the tolerance, or insert before the first
    node that exceeds the new expiry by more than the tolerance, or append. *)
Fixpoint insert_spec (d : Q) (a : Z) (l : list (Q * Z)) : list (Q * Z) :=
  match l with
  | [] => [(d, a)]
  | (x, b) :: tl =>
      if within x d then (Qmin x d, b + a) :: tl
      else if exceeds x d then (d, a) :: (x, b) :: tl
      else (x, b) :: insert_spec d a tl
  end.

End Ledger.

(** ** The cooldown ledger on doubles: class [RatelimitUnit] *)

(** [update_with] as it runs on Python floats. A timestamp is a binary64
    double; [+], [-] and [<] are the operations of the machine, each sum and
    difference rounded to the nearest double. *)
Module Ledger64.
Import PrimFloat.

(** [RATELIMIT_DROP_ROUND = 0.20]: the double nearest to 0.20. *)
Definition RATELIMIT_DROP_ROUND : float := 0x1.999999999999ap-3%float.

(** A node of the chain: [drop], [allocates] and the [next] node or [None]. *)
Unset Elimination Schemes.
Inductive RatelimitUnit : Type :=
  mkUnit { drop : float; allocates : Z; next : option RatelimitUnit }.
Set Elimination Schemes.

(** [RatelimitUnit.__init__(drop, allocates)] *)
Definition new_unit (d : float) (a : Z) : RatelimitUnit := mkUnit d a None.

(** The [while True] loop of [update_with], run from the node [last]: the
    result is [last] as the loop leaves it (its successors are rebuilt where
    the loop assigns [last.next], [actual.drop] or [actual.allocates]).
    [new_drop_min > actual_drop] is [actual_drop < new_drop_min]. *)
Fixpoint walk (d : float) (a : Z) (last : RatelimitUnit) : RatelimitUnit :=
  let new_drop_max := (d + RATELIMIT_DROP_ROUND)%float in
  let new_drop_min := (d - RATELIMIT_DROP_ROUND)%float in
  match last with
  | mkUnit ld la None =>
      (* actual is None: append a new tail *)
      mkUnit ld la (Some (mkUnit d a None))
  | mkUnit ld la (Some actual) =>
      let actual_drop := drop actual in
      if (new_drop_max <? actual_drop)%float then
        mkUnit ld la (Some (mkUnit d a (Some actual)))
      else if (actual_drop <? new_drop_min)%float then
        mkUnit ld la (Some (walk d a actual))
      else
        mkUnit ld la
          (Some (mkUnit (if (d <? actual_drop)%float then d else actual_drop)
                        (allocates actual + a)
                        (next actual)))
  end.

(** [RatelimitUnit.update_with(self, drop, allocates)]: the result is the
    head node [self] after the call. *)
Definition update_with (self : RatelimitUnit) (d : float) (a : Z)
    : RatelimitUnit :=
  let actual_drop := drop self in
  let new_drop_max := (d + RATELIMIT_DROP_ROUND)%float in
  if (new_drop_max <? actual_drop)%float then
    let new := mkUnit (drop self) (allocates self) (next self) in
    mkUnit d a (Some new)
  else
    let new_drop_min := (d - RATELIMIT_DROP_ROUND)%float in
    if (actual_drop <? new_drop_min)%float then
      walk d a self
    else
      mkUnit (if (d <? actual_drop)%float then d else actual_drop)
             (allocates self + a)
             (next self).

(** The chain from a node on, as the list of its [(drop, allocates)] pairs. *)
Fixpoint to_list (u : RatelimitUnit) : list (float * Z) :=
  match u with
  | mkUnit d a None => [(d, a)]
  | mkUnit d a (Some n) => (d, a) :: to_list n
  end.

Definition chain (drops : option RatelimitUnit) : list (float * Z) :=
  match drops with
  | None => []
  | Some u => to_list u
  end.

(** Induction along the [next] pointers. *)
Fixpoint unit_chain_ind (P : RatelimitUnit -> Prop)
    (Hlast : forall d a, P (mkUnit d a None))
    (Hnext : forall d a n, P n -> P (mkUnit d a (Some n)))
    (u : RatelimitUnit) : P u :=
  match u with
  | mkUnit d a None => Hlast d a
  | mkUnit d a (Some n) => Hnext d a n (unit_chain_ind P Hlast Hnext n)
  end.

(** *** What the specification says of the ledger *)

(** The first node of [l], if there is one, expires after [x]. *)
Definition above (x : float) (l : list (float * Z)) : Prop :=
  match l with
  | [] => True
  | (y, _) :: _ => (x <? y)%float = true
  end.

(** Expiries ascend along the chain, by the [<] of the doubles. *)
Fixpoint ascending (l : list (float * Z)) : Prop :=
  match l with
  | [] => True
  | (x, _) :: tl => above x tl /\ ascending tl
  end.

(** [x] exceeds [d] by more than the tolerance, as the code decides it:
    [d + RATELIMIT_DROP_ROUND < x], the sum rounded. *)
Definition exceeds (x d : float) : bool :=
  (d + RATELIMIT_DROP_ROUND <? x)%float.

(** [x] is below [d] by more than the tolerance, as the code decides it:
    [d - RATELIMIT_DROP_ROUND > x], the difference rounded. *)
Definition precedes (x d : float) : bool :=
  (x <? d - RATELIMIT_DROP_ROUND)%float.

(** [x] is within the tolerance of [d]: neither of the two. *)
Definition within (x d : float) : bool :=
  negb (exceeds x d) && negb (precedes x d).

(** The smaller of the expiry [x] of a node and the new expiry [d]. *)
Definition smaller (x d : float) : float :=
  if (d <? x)%float then d else x.

(** The insertion on the list of pairs: merge into the first node within the
    tolerance (the smaller expiry, the allocations summed), or insert before
    the first node that exceeds the new expiry by more than the tolerance,
    or append. *)
Fixpoint insert_spec (d : float) (a : Z) (l : list (float * Z))
    : list (float * Z) :=
  match l with
  | [] => [(d, a)]
  | (x, b) :: tl =>
      if within x d then (smaller x d, b + a) :: tl
      else if exceeds x d then (d, a) :: (x, b) :: tl
      else (x, b) :: insert_spec d a tl
  end.

(** The number a double stands for; [None] for an infinity and for NaN. *)
Definition value (f : float) : option Q :=
  match FloatOps.Prim2SF f with
  | SpecFloat.S754_zero _ => Some 0%Q
  | SpecFloat.S754_finite s m e =>
      Some (inject_Z (if s then Z.neg m else Z.pos m) * Qpower 2 e)%Q
  | _ => None
  end.


(** The doubles that Python reads [0.6], [0.8] and [10.15] as. *)
Definition drop_0_6 : float := 0x1.3333333333333p-1%float.
Definition drop_0_8 : float := 0x1.999999999999ap-1%float.
Definition drop_10_15 : float := 0x1.44ccccccccccdp+3%float.

End Ledger64.

(** ** Exceptions and the state-and-exception monad *)

Inductive Exn : Type :=
| TypeError | ValueError | KeyError | IndexError | AttributeError | RuntimeError.

Inductive Result (S A : Type) : Type :=
| Ok (a : A) (s : S)
| Raised (e : Exn) (s : S).
Arguments Ok {S A} a s.
Arguments Raised {S A} e s.

Definition M (S A : Type) : Type := S -> Result S A.

Definition ret {S A} (a : A) : M S A := fun s => Ok a s.
Definition raise {S A} (e : Exn) : M S A := fun s => Raised e s.
Definition bind {S A B} (m : M S A) (k : A -> M S B) : M S B :=
  fun s => match m s with
           | Ok a s' => k a s'
           | Raised e s' => Raised e s'
           end.
Definition gets {S A} (f : S -> A) : M S A := fun s => Ok (f s) s.
Definition modify {S} (f : S -> S) : M S unit := fun s => Ok tt (f s).

Notation "x <- m ;; k" := (bind m (fun x => k))
  (at level 61, m at next level, right associativity).
Notation "m ;;; k" := (bind m (fun _ => k))
  (at level 61, right associativity).

(** The state a computation ends in, returned or raised. *)
Definition final {S A} (r : Result S A) : S :=
  match r with Ok _ s => s | Raised _ s => s end.

(** ** The rate group descriptor: class [RatelimitGroup] *)

Inductive Limiter : Type :=
| LIMITER_CHANNEL | LIMITER_GUILD | LIMITER_WEBHOOK | LIMITER_GLOBAL
| LIMITER_UNLIMITED
| LIMITER_other (* any other object passed as [limiter] *).

Record RatelimitGroup : Type := mkGroup {
  group_id : Z;
  limiter : Limiter;
  size : Z }.

(** The class attribute [__auto_next_id] when the class is created. *)
Definition auto_next_id_start : Z := Z.shiftl 105 8.

(** [RatelimitGroup.__new__(cls, limiter, optimistic)], with the class
    counter [__auto_next_id] passed in and out. *)
Definition RatelimitGroup_new (limiter : Limiter) (optimistic : bool)
    : M Z RatelimitGroup :=
  fun auto_next_id =>
    let group_id := auto_next_id in
    Ok (mkGroup group_id limiter (if optimistic then -1 else 0))
       (group_id + Z.shiftl 7 8).

(** [RatelimitGroup.unlimited()]: the singleton. *)
Definition unlimited : RatelimitGroup :=
  mkGroup 0 LIMITER_UNLIMITED UNLIMITED_SIZE_VALUE.

(** ** The handler: class [RatelimitHandler] *)

Module Handler.
Export Ledger.

(** A [Future] object, by the order of its creation. *)
Definition Future : Type := nat.

(** The handle [KOKORO.call_at(when, ...)] returns. *)
Record Handle : Type := mkHandle { when : Q }.

Record RatelimitHandler : Type := mkHandler {
  parent : RatelimitGroup;
  limiter_id : Z;
  drops : option RatelimitUnit;
  active : Z;
  queue : option (list Future);
  wakeupper : option Handle }.

(** [RatelimitHandler.__init__(self, parent, limiter_id)]; the second test
    of the source repeats the first, so its branch is never taken. *)
Definition RatelimitHandler_init (parent : RatelimitGroup) (limiter_id : Z)
    : RatelimitHandler :=
  let limiter_id :=
    match limiter parent with
    | LIMITER_UNLIMITED => 0
    | _ => limiter_id
    end in
  mkHandler parent limiter_id None 0 None None.

(** [RatelimitHandler.copy] *)
Definition copy (self : RatelimitHandler) : RatelimitHandler :=
  mkHandler (parent self) (limiter_id self) None 0 None None.

(** [RatelimitHandler.__eq__] *)
Definition handler_eqb (self other : RatelimitHandler) : bool :=
  if negb (limiter_id self =? limiter_id other) then false
  else if negb (group_id (parent self) =? group_id (parent other)) then false
  else true.

(** [RatelimitHandler.count_drops] *)
Definition count_drops (self : RatelimitHandler) : Z :=
  match drops self with
  | None => 0
  | Some u => count_from u 0
  end.

(** What the event loop [KOKORO] is asked to do, in order. *)
Inductive LoopEvent : Type :=
| SetResult (f : Future)      (* future.set_result(None) *)
| CallAt (h : Handle)         (* KOKORO.call_at(when, wakeup, self) *)
| Cancel (h : Handle).        (* handle.cancel() *)

(** The handler [self], the number of futures created so far and the
    requests made to the event loop. The descriptor [self.parent] is an
    object that all the handlers of a group share; the properties below
    follow one handler, so the descriptor is kept with it. *)
Record World : Type := mkWorld {
  self : RatelimitHandler;
  futures : nat;
  trace : list LoopEvent }.

(** Assignments to the slots of [self], and to [self.parent.size]. *)
Definition with_self (f : RatelimitHandler -> RatelimitHandler) (w : World) : World :=
  mkWorld (f (self w)) (futures w) (trace w).
Definition set_size (v : Z) (h : RatelimitHandler) : RatelimitHandler :=
  mkHandler (mkGroup (group_id (parent h)) (limiter (parent h)) v)
            (limiter_id h) (drops h) (active h) (queue h) (wakeupper h).
Definition set_drops (v : option RatelimitUnit) (h : RatelimitHandler) :=
  mkHandler (parent h) (limiter_id h) v (active h) (queue h) (wakeupper h).
Definition set_active (v : Z) (h : RatelimitHandler) :=
  mkHandler (parent h) (limiter_id h) (drops h) v (queue h) (wakeupper h).
Definition set_queue (v : option (list Future)) (h : RatelimitHandler) :=
  mkHandler (parent h) (limiter_id h) (drops h) (active h) v (wakeupper h).
Definition set_wakeupper (v : option Handle) (h : RatelimitHandler) :=
  mkHandler (parent h) (limiter_id h) (drops h) (active h) (queue h) v.

Definition read {A} (f : RatelimitHandler -> A) : M World A :=
  gets (fun w => f (self w)).
Definition assign (f : RatelimitHandler -> RatelimitHandler) : M World unit :=
  modify (with_self f).
Definition emit (e : LoopEvent) : M World unit :=
  modify (fun w => mkWorld (self w) (futures w) (trace w ++ [e])).

(** [Future(KOKORO)] *)
Definition new_future : M World Future :=
  fun w => Ok (futures w) (mkWorld (self w) (S (futures w)) (trace w)).

(** [KOKORO.call_at(when, type(self).wakeup, self)] *)
Definition call_at (t : Q) : M World Handle :=
  emit (CallAt (mkHandle t)) ;;; ret (mkHandle t).

(** [len(queue)] for [queue = self.queue]: [None] has no length. *)
Definition queue_len : M World Z :=
  q <- read queue ;;
  match q with
  | None => raise TypeError
  | Some q => ret (Z.of_nat (length q))
  end.

(** [queue.append(future)] on the deque [self.queue]. *)
Definition queue_append (f : Future) : M World unit :=
  q <- read queue ;;
  match q with
  | None => raise AttributeError
  | Some q => assign (set_queue (Some (q ++ [f])))
  end.

(** [queue.popleft()] on the deque [self.queue]. *)
Definition queue_popleft : M World Future :=
  q <- read queue ;;
  match q with
  | None => raise AttributeError
  | Some [] => raise IndexError
  | Some (f :: q) => assign (set_queue (Some q)) ;;; ret f
  end.

(** The loop [while can_free>0: future = queue.popleft();
    future.set_result(None); can_free-=1], which runs [can_free] times when
    that is positive and not at all otherwise. *)
Fixpoint free_loop (n : nat) : M World unit :=
  match n with
  | O => ret tt
  | S n' =>
      future <- queue_popleft ;;
      emit (SetResult future) ;;;
      free_loop n'
  end.

Definition free_waiters (can_free : Z) : M World unit :=
  free_loop (Z.to_nat can_free).

(** How a call of the coroutine [enter] goes on: it returns, or it is
    suspended at [await future]. *)
Inductive Entered : Type :=
| Returned
| Awaiting (future : Future).

(** [enter] from line 330 on, with the local [size] settled. *)
Definition enter_sized (size : Z) : M World Entered :=
  queue <- read queue ;;
  (match queue with
   | None => assign (set_queue (Some []))
   | Some _ => ret tt
   end) ;;;
  active <- read active ;;
  let left := size - active in
  if left <=? 0 then
    future <- new_future ;;
    queue_append future ;;;
    ret (Awaiting future)
  else
    count <- read count_drops ;;
    let left := left - count in
    if left >? 0 then
      assign (set_active (active + 1)) ;;;
      ret Returned
    else
      future <- new_future ;;
      queue_append future ;;;
      ret (Awaiting future).

(** [RatelimitHandler.enter], up to its return or its [await]. *)
Definition enter : M World Entered :=
  size <- read (fun h => size (parent h)) ;;
  if size <? 1 then
    if size =? UNLIMITED_SIZE_VALUE then ret Returned
    else if size =? 0 then enter_sized 1
    else enter_sized (- size)
  else enter_sized size.

(** The rest of [enter] after either [await future], run when the future's
    result has been set: [self.active = self.active+1]. *)
Definition enter_resumed : M World unit :=
  active <- read active ;;
  assign (set_active (active + 1)).

(** [wakeup], lines 453-463: the head of the ledger is discarded and the
    wakeup scheduled again for the new head. *)
Definition wakeup_advance : M World unit :=
  drops <- read drops ;;
  wakeupper <-
    (match drops with
     | None => ret None
     | Some drops =>
         let drops := next drops in
         assign (set_drops drops) ;;;
         match drops with
         | Some drops => h <- call_at (drop drops) ;; ret (Some h)
         | None => ret None
         end
     end) ;;
  assign (set_wakeupper wakeupper).

(** [wakeup], lines 465-486: as many waiters as there is room for go on. *)
Definition wakeup_release : M World unit :=
  queue_ln <- queue_len ;;
  if queue_ln =? 0 then ret tt
  else
    size <- read (fun h => size (parent h)) ;;
    let size := if size <? 0 then - size else size in
    active <- read active ;;
    count <- read count_drops ;;
    let can_free := size - active - count in
    let can_free := if can_free >? queue_ln then queue_ln else can_free in
    free_waiters can_free.

(** [RatelimitHandler.wakeup] *)
Definition wakeup : M World unit :=
  wakeup_advance ;;; wakeup_release.

(** The response headers [exit] reads, by the values [int] and [float] (and
    the date parser) give for them; [None] for a header that is absent.
    [DATE] is the moment the Date header names, in seconds since the epoch. *)
Record Headers : Type := mkHeaders {
  RATELIMIT_LIMIT : option Z;
  RATELIMIT_REMAINING : option Z;
  RATELIMIT_RESET : option Q;
  RATELIMIT_RESET_AFTER : option Q;
  DATE : option Q }.

(** [headers[name]] *)
Definition item {A} (v : option A) : M World A :=
  match v with
  | None => raise KeyError
  | Some v => ret v
  end.

(** [exit], lines 389-415: the descriptor takes the new size, waiters go on
    if it grew; the result is the local [allocates]. *)
Definition exit_resize (headers : Headers) (current_size size : Z)
    (optimistic : bool) : M World Z :=
  if negb (size =? current_size) then
    assign (set_size size) ;;;
    let current_size := if optimistic then - current_size else current_size in
    let size := if optimistic then - size else size in
    if size >? current_size then
      ca <-
        (if current_size =? -1 then
           remaining <- item (RATELIMIT_REMAINING headers) ;;
           ret (1, size - remaining)
         else ret (current_size, 1)) ;;
      let current_size := fst ca in
      let allocates := snd ca in
      let can_free := size - current_size in
      queue_ln <- queue_len ;;
      let can_free := if can_free >? queue_ln then queue_ln else can_free in
      free_waiters can_free ;;;
      ret allocates
    else ret 1
  else ret 1.

(** [datetime.fromtimestamp(t, timezone.utc)] keeps whole microseconds of
    [t], the nearest ones, a half going to the even one. *)
Definition microseconds (t : Q) : Q :=
  let n := Qnum t * 1000000 in
  let whole := n / QDen t in
  let twice := 2 * (n mod QDen t) in
  let up := (QDen t <? twice) || ((twice =? QDen t) && Z.odd whole) in
  (if up then whole + 1 else whole) # 1000000.

(** [exit], lines 417-428: the local [delay]. *)
Definition exit_delay (headers : Headers) (optimistic : bool) : M World Q :=
  if optimistic then ret 1%Q
  else
    reset <- item (RATELIMIT_RESET headers) ;;
    date <- item (DATE headers) ;;
    let delay1 := (microseconds reset - date)%Q in
    delay2 <- item (RATELIMIT_RESET_AFTER headers) ;;
    ret (if Qltb delay1 delay2 then delay1 else delay2).

(** [exit], lines 432-449: the cooldown goes into the ledger and the wakeup
    is scheduled. *)
Definition exit_schedule (drop : Q) (allocates : Z) : M World unit :=
  drops <- read drops ;;
  (match drops with
   | None => assign (set_drops (Some (new_unit drop allocates)))
   | Some drops => assign (set_drops (Some (update_with drops drop allocates)))
   end) ;;;
  wakeupper <- read wakeupper ;;
  match wakeupper with
  | None =>
      wakeupper <- call_at drop ;;
      assign (set_wakeupper (Some wakeupper))
  | Some wakeupper =>
      if negb (Qltb drop (when wakeupper)) then ret tt
      else
        emit (Cancel wakeupper) ;;;
        wakeupper <- call_at drop ;;
        assign (set_wakeupper (Some wakeupper))
  end.

(** The end of [exit] once [size] is known: lines 389-449. [now] is what
    [monotonic()] returns. *)
Definition exit_record (headers : Headers) (now : Q)
    (current_size size : Z) (optimistic : bool) : M World unit :=
  allocates <- exit_resize headers current_size size optimistic ;;
  delay <- exit_delay headers optimistic ;;
  let drop := (now + delay)%Q in
  exit_schedule drop allocates.

(** The end of [exit] when no size is found: lines 381-387. *)
Definition exit_wakeup : M World unit :=
  wakeupper <- read wakeupper ;;
  (match wakeupper with
   | Some wakeupper =>
       emit (Cancel wakeupper) ;;;
       assign (set_wakeupper None)
   | None => ret tt
   end) ;;;
  wakeup.

(** [RatelimitHandler.exit(self, headers)] *)
Definition exit (headers : option Headers) (now : Q) : M World unit :=
  current_size <- read (fun h => size (parent h)) ;;
  if current_size =? UNLIMITED_SIZE_VALUE then ret tt
  else
    active <- read active ;;
    assign (set_active (active - 1)) ;;;
    match headers with
    | Some headers =>
        match RATELIMIT_LIMIT headers with
        | None =>
            if current_size <? 0 then
              let size := current_size in
              let size :=
                if size >? MAXIMAL_UNLIMITED_PARARELLITY then size - 1 else size in
              exit_record headers now current_size size true
            else exit_wakeup
        | Some size => exit_record headers now current_size size false
        end
    | None => exit_wakeup
    end.

(** *** Calls in sequence *)

Inductive Call : Type :=
| CallEnter                                      (* enter(), to its return or await *)
| CallResumed                                    (* a released waiter goes on *)
| CallExit (headers : option Headers) (now : Q)  (* exit(headers) at time [now] *)
| CallWakeup.                                    (* the scheduled wakeup() fires *)

Definition call (c : Call) : M World unit :=
  match c with
  | CallEnter => enter ;;; ret tt
  | CallResumed => enter_resumed
  | CallExit headers now => exit headers now
  | CallWakeup => wakeup
  end.

Fixpoint calls (cs : list Call) : M World unit :=
  match cs with
  | [] => ret tt
  | c :: cs => call c ;;; calls cs
  end.

(** A handler just made for [group], before any call. *)
Definition fresh (group : RatelimitGroup) (limiter_id : Z) : World :=
  mkWorld (RatelimitHandler_init group limiter_id) 0 [].

(** *** The words of the specification *)

(** The effective size: [0] counts as [1], a negative size as its
    absolute value. *)
Definition effective_size (size : Z) : Z :=
  if size =? 0 then 1 else Z.abs size.

(** Remaining capacity: [size - active - count_drops()]. *)
Definition remaining (h : RatelimitHandler) : Z :=
  effective_size (size (parent h)) - active h - count_drops h.

(** The waiters queued, none when the deque is not made yet. *)
Definition pending (h : RatelimitHandler) : list Future :=
  match queue h with
  | None => []
  | Some q => q
  end.

(** The call is suspended, its continuation waiting on a queued future. *)
Definition suspends (r : Result World Entered) : Prop :=
  exists future w', r = Ok (Awaiting future) w' /\ In future (pending (self w')).

(** The futures whose result has been set, in order. *)
Fixpoint released (tr : list LoopEvent) : list Future :=
  match tr with
  | [] => []
  | SetResult f :: tr => f :: released tr
  | _ :: tr => released tr
  end.

(** The handles cancelled, in order. *)
Fixpoint cancelled (tr : list LoopEvent) : list Handle :=
  match tr with
  | [] => []
  | Cancel h :: tr => h :: cancelled tr
  | _ :: tr => cancelled tr
  end.

(** No header of the call is the explicit limit. *)
Definition lacks_limit (c : Call) : Prop :=
  match c with
  | CallExit (Some headers) _ => RATELIMIT_LIMIT headers = None
  | _ => True
  end.

End Handler.

(** ** The proxy: class [RatelimitProxy] *)

Module Proxy.
Import Handler.

(** The object a proxy is made for, the argument [limiter] of
    [RatelimitProxy.__new__]. [guild] stands for what [limiter.guild] gives:
    the id of that guild, or [None]. *)
Inductive Scope : Type :=
| Guild (id : Z)
| Channel (id : Z) (guild : option Z)           (* a [ChannelBase] instance *)
| Message (id : Z) (channel_id : Z) (guild : option Z)
| Role (id : Z) (guild : option Z)
| Webhook (id : Z) (guild : option Z)
| WebhookRepr (id : Z) (guild : option Z)
| OtherObject.                                   (* anything else, [None] too *)

(** [group.id]: [RatelimitGroup] has the slots [group_id], [limiter] and
    [size], and neither a slot nor a property [id]. *)
Definition group_dot_id {S} (group : RatelimitGroup) : M S Z :=
  raise AttributeError.

(** The loop [while True] of [RatelimitProxy.__new__], lines 527-565: the
    [limiter_id] it leaves, or the exception it raises. [group] is a
    [RatelimitGroup] by its type, so the [TypeError] of line 525 does not
    arise. *)
Definition resolve_limiter_id {S} (group : RatelimitGroup) (scope : Scope)
    : M S Z :=
  match limiter group with
  | LIMITER_GLOBAL => ret GLOBALLY_LIMITED
  | LIMITER_UNLIMITED => ret 0
  | LIMITER_CHANNEL =>
      match scope with
      | Channel id _ => ret id
      | Message _ channel_id _ => ret channel_id
      | _ => raise ValueError
      end
  | LIMITER_GUILD =>
      match scope with
      | Guild id => ret id
      | Channel _ guild | Message _ _ guild | Role _ guild
      | Webhook _ guild | WebhookRepr _ guild =>
          match guild with
          | Some _ => group_dot_id group
          | None => raise ValueError
          end
      | OtherObject => raise ValueError
      end
  | LIMITER_WEBHOOK =>
      match scope with
      | Webhook id _ | WebhookRepr id _ => ret id
      | _ => raise ValueError
      end
  | LIMITER_other => raise RuntimeError
  end.

(** A handler object, by its identity. *)
Definition Addr : Type := nat.

(** The handler objects that are alive and [client.http.handlers]. *)
Record Memory : Type := mkMemory {
  heap : list (Addr * RatelimitHandler);
  handlers : list Addr;
  next_addr : Addr }.

Fixpoint lookup (a : Addr) (l : list (Addr * RatelimitHandler))
    : option RatelimitHandler :=
  match l with
  | [] => None
  | (b, h) :: l => if Nat.eqb a b then Some h else lookup a l
  end.

(** Modelled from the spec: [WeakReferer] of hata.backend, which is not
    under src/. Calling the reference gives the object while it is alive
    and [None] after. *)
Definition deref (m : Memory) (a : Addr) : option RatelimitHandler :=
  lookup a (heap m).

(** Modelled from the spec: the weak map [client.http.handlers] of
    hata.backend, which is not under src/, a registry keyed by the equality
    of handlers on [(group_id, limiter_id)]. [handlers.get(key)] gives the
    registered handler equal to [key], or [None]. *)
Definition handlers_get (m : Memory) (key : RatelimitHandler) : option Addr :=
  find (fun a => match deref m a with
                 | Some h => handler_eqb h key
                 | None => false
                 end) (handlers m).

(** Modelled from the spec: [handlers.set(key)] gives the registered handler
    equal to [key] if there is one, and registers [key] and gives it back if
    not. *)
Definition handlers_set (a : Addr) : M Memory Addr :=
  fun m =>
    match deref m a with
    | None => Ok a m (* not reached: [a] is a strong reference *)
    | Some key =>
        match handlers_get m key with
        | Some b => Ok b m
        | None => Ok a (mkMemory (heap m) (handlers m ++ [a]) (next_addr m))
        end
    end.

(** A new handler object. *)
Definition allocate (h : RatelimitHandler) : M Memory Addr :=
  fun m => Ok (next_addr m)
              (mkMemory (heap m ++ [(next_addr m, h)]) (handlers m)
                        (S (next_addr m))).

(** The slots of a proxy; [client] is the client whose [http.handlers] the
    memory holds. *)
Record RatelimitProxy : Type := mkProxy {
  _handler : option Addr;
  _key : Addr;
  group : RatelimitGroup }.

(** [RatelimitProxy.__new__(cls, client, group, limiter, keep_alive)] *)
Definition RatelimitProxy_new (group : RatelimitGroup) (scope : Scope)
    (keep_alive : bool) : M Memory RatelimitProxy :=
  limiter_id <- resolve_limiter_id group scope ;;
  key <- allocate (RatelimitHandler_init group limiter_id) ;;
  if keep_alive then
    key <- handlers_set key ;;
    ret (mkProxy (Some key) key group)
  else
    ret (mkProxy None key group).

(** The property [limiter_id]: [self._key.limiter_id]. *)
Definition proxy_limiter_id (self : RatelimitProxy) (m : Memory) : option Z :=
  option_map limiter_id (deref m (_key self)).

(** A proxy and the memory it lives in. *)
Record ProxyWorld : Type := mkProxyWorld {
  proxy : RatelimitProxy;
  memory : Memory }.

(** The property [handler], lines 662-674. *)
Definition handler : M ProxyWorld (option RatelimitHandler) :=
  handler <- gets (fun s => _handler (proxy s)) ;;
  handler <-
    (match handler with
     | Some a => gets (fun s => deref (memory s) a)
     | None => ret None
     end) ;;
  match handler with
  | Some h => ret (Some h)
  | None =>
      key <- gets (fun s => deref (memory s) (_key (proxy s))) ;;
      match key with
      | None => ret None (* not reached: [_key] is a strong reference *)
      | Some key =>
          found <- gets (fun s => handlers_get (memory s) key) ;;
          match found with
          | Some a =>
              modify (fun s => mkProxyWorld
                                 (mkProxy (Some a) (_key (proxy s))
                                          (group (proxy s)))
                                 (memory s)) ;;;
              gets (fun s => deref (memory s) a)
          | None => ret None
          end
      end
  end.

(** The property [used_count] *)
Definition used_count : M ProxyWorld Z :=
  handler <- handler ;;
  match handler with
  | None => ret 0
  | Some handler => ret (active handler + count_drops handler)
  end.

(** The property [free_count] *)
Definition free_count : M ProxyWorld Z :=
  size <- gets (fun s => size (group (proxy s))) ;;
  let continue (size : Z) :=
    handler <- handler ;;
    match handler with
    | None => ret size
    | Some handler => ret (size - active handler - count_drops handler)
    end in
  if size <? 1 then
    if size =? 0 then continue 1
    else if size =? UNLIMITED_SIZE_VALUE then ret 0
    else continue (- size)
  else continue size.

(** The property [waiting_count] *)
Definition waiting_count : M ProxyWorld Z :=
  handler <- handler ;;
  match handler with
  | None => ret 0
  | Some handler =>
      match queue handler with
      | None => ret 0
      | Some q => ret (Z.of_nat (length q))
      end
  end.

(** [not drops] for a [RatelimitUnit]: the class has neither [__bool__] nor
    [__len__], so every instance is true. *)
Definition not_unit (drops : RatelimitUnit) : bool := false.

(** [drops[0]] for a [RatelimitUnit]: the class has no [__getitem__]. *)
Definition unit_getitem {S} (drops : RatelimitUnit) (i : Z)
    : M S RatelimitUnit :=
  raise TypeError.

(** The property [next_reset_at] *)
Definition next_reset_at : M ProxyWorld Q :=
  handler <- handler ;;
  match handler with
  | None => ret 0%Q
  | Some handler =>
      match drops handler with
      | None => ret 0%Q
      | Some drops =>
          if not_unit drops then ret 0%Q
          else
            first <- unit_getitem drops 0 ;;
            ret (drop first)
      end
  end.

(** The property [next_reset_after]; [now] is what [monotonic()] gives. *)
Definition next_reset_after (now : Q) : M ProxyWorld Q :=
  handler <- handler ;;
  match handler with
  | None => ret 0%Q
  | Some handler =>
      match drops handler with
      | None => ret 0%Q
      | Some drops =>
          if not_unit drops then ret 0%Q
          else
            first <- unit_getitem drops 0 ;;
            ret (drop first - now)%Q
      end
  end.

(** A group limited by guild, as [RATELIMIT_GROUPS.GROUP_USER_MODIFY], the
    third group the table makes. *)
Definition guild_group : RatelimitGroup := mkGroup 30464 LIMITER_GUILD 0.

Definition empty_memory : Memory := mkMemory [] [] 0%nat.

(** A kept-alive proxy of a channel group whose handler has one cooldown
    node, expiring at 10.0. *)
Definition cooling_handler : RatelimitHandler :=
  mkHandler (mkGroup 26880 LIMITER_CHANNEL 5) 7 (Some (new_unit 10 1)) 0
            (Some []) (Some (mkHandle 10)).

Definition cooling_proxy : ProxyWorld :=
  mkProxyWorld (mkProxy (Some 0%nat) 0%nat (mkGroup 26880 LIMITER_CHANNEL 5))
               (mkMemory [(0%nat, cooling_handler)] [0%nat] 1%nat).

End Proxy.

(** ** The outcomes of the handler's methods, in closed form *)

Module HandlerSpec.
Import Handler.

(** The world [enter] leaves when it queues the caller. *)
Definition queued_world (w : World) : World :=
  mkWorld (set_queue (Some (pending (self w) ++ [futures w])) (self w))
          (S (futures w)) (trace w).

(** The world [enter] leaves when it admits the caller. *)
Definition entered_world (w : World) : World :=
  mkWorld (set_active (active (self w) + 1)
             (set_queue (Some (pending (self w))) (self w)))
          (futures w) (trace w).

(** [if can_free > queue_ln: can_free = queue_ln], then the loop: the number
    of waiters released. *)
Definition capped (can_free : Z) (w : World) : nat :=
  Z.to_nat (Z.min can_free (Z.of_nat (length (pending (self w))))).

(** The first [k] waiters leave the queue and have their result set. *)
Definition release (k : nat) (w : World) : World :=
  mkWorld (set_queue (Some (skipn k (pending (self w)))) (self w))
          (futures w)
          (trace w ++ map SetResult (firstn k (pending (self w)))).

(** The ledger after its head node is discarded. *)
Definition advance (drops : option RatelimitUnit) : option RatelimitUnit :=
  match drops with
  | None => None
  | Some u => next u
  end.

(** The world after [wakeup()]. *)
Definition wakeup_world (w : World) : World :=
  let rest := advance (drops (self w)) in
  let w1 :=
    mkWorld
      (set_wakeupper (option_map (fun u => mkHandle (drop u)) rest)
         (set_drops rest (self w)))
      (futures w)
      (trace w ++ match rest with
                  | Some u => [CallAt (mkHandle (drop u))]
                  | None => []
                  end) in
  release
    (capped (Z.abs (size (parent (self w))) - active (self w) - count_drops (self w1)) w1)
    w1.


(** The cooldown [(drop, allocates)] goes into the ledger and the wakeup is
    scheduled for [drop] unless one is scheduled no later. *)
Definition record_world (d : Q) (a : Z) (w : World) : World :=
  let h := self w in
  let ledger :=
    match drops h with
    | None => new_unit d a
    | Some u => update_with u d a
    end in
  let h1 := set_drops (Some ledger) h in
  match wakeupper h with
  | None =>
      mkWorld (set_wakeupper (Some (mkHandle d)) h1) (futures w)
              (trace w ++ [CallAt (mkHandle d)])
  | Some old =>
      if Qltb d (when old) then
        mkWorld (set_wakeupper (Some (mkHandle d)) h1) (futures w)
                (trace w ++ [Cancel old; CallAt (mkHandle d)])
      else mkWorld h1 (futures w) (trace w)
  end.


(** The size of the descriptor, [self.parent.size]. *)
Definition size_of (w : World) : Z := size (parent (self w)).

(** A computation that leaves the size of the descriptor as it is, however
    it ends. *)
Definition keeps_size {A} (m : M World A) : Prop :=
  forall w, size_of (final (m w)) = size_of w.

(** The headers settle the size [cur]: they are absent, or carry the explicit
    limit, or the size is no estimate between the cap and zero. *)
Definition settles (headers : option Headers) (cur : Z) : Prop :=
  match headers with
  | None => True
  | Some headers =>
      match RATELIMIT_LIMIT headers with
      | Some _ => True
      | None => 0 <= cur \/ cur <= MAXIMAL_UNLIMITED_PARARELLITY
      end
  end.

(** The size [exit(headers)] leaves in the descriptor, from the size before. *)
Definition size_after_exit (headers : option Headers) (cur : Z) : Z :=
  if cur =? UNLIMITED_SIZE_VALUE then cur
  else
    match headers with
    | None => cur
    | Some headers =>
        match RATELIMIT_LIMIT headers with
        | Some lim => lim
        | None =>
            if (cur <? 0) && (cur >? MAXIMAL_UNLIMITED_PARARELLITY)
            then cur - 1 else cur
        end
    end.

(** The sum of the allocations of a ledger. *)
Definition ledger_total (l : list (Q * Z)) : Z :=
  fold_right Z.add 0 (map snd l).

(** The slots a new size frees: the growth of the capacity from the cached
    size [cur] to the limit [lim], each counted as [enter] counts a size. *)
Definition newly_freed (cur lim : Z) : Z :=
  effective_size lim - effective_size cur.

(** *** States and headers of the examples *)

(** An optimistic group limited by channel, as
    [RATELIMIT_GROUPS.channel_follow], the fifteenth group the table makes. *)
Definition optimistic_group : RatelimitGroup :=
  mkGroup 51968 LIMITER_CHANNEL (-1).

(** Response headers with limit 5 and remaining 5. *)
Definition limit_five : Headers :=
  mkHeaders (Some 5) (Some 5) (Some 1002%Q) (Some 2%Q) (Some 1000%Q).

(** Response headers of an endpoint that is not rate limited yet. *)
Definition no_limit : Headers :=
  mkHeaders None None None None (Some 1000%Q).

(** A caller has entered a fresh optimistic handler and a second one waits. *)
Definition one_queued : World :=
  final (calls [CallEnter; CallEnter] (fresh optimistic_group 7)).


(** Three callers enter a fresh optimistic handler and the first leaves on a
    connection error: the second has been released and not yet resumed, the
    third is still queued, and one slot is free. *)
Definition one_waiter_left : World :=
  final (calls [CallEnter; CallEnter; CallEnter; CallExit None 0]
               (fresh optimistic_group 7)).


(** A fresh handler of a group that is not optimistic, after a caller has
    entered, a second one has queued, and the first one has left on a
    connection error. *)
Definition unset_with_waiter : World :=
  final (calls [CallEnter; CallEnter; CallExit None 0]
               (fresh (mkGroup 26880 LIMITER_CHANNEL 0) 7)).

(** One request on an idle handler: it enters, leaves at time [t] with
    headers that carry no limit, and the cooldown of one second expires. *)
Definition round (t : Z) : list Call :=
  [CallEnter; CallExit (Some no_limit) (inject_Z t); CallWakeup].

Fixpoint rounds (n : nat) (t : Z) : list Call :=
  match n with
  | O => []
  | S n => round t ++ rounds n (t + 2)
  end.


(** A group limited by channel that is not optimistic, as
    [RATELIMIT_GROUPS.GROUP_REACTION_MODIFY], the first group the table
    makes. *)
Definition unset_group : RatelimitGroup := mkGroup 26880 LIMITER_CHANNEL 0.

(** Six callers on a fresh handler of a group that is not optimistic: the
    first has entered and five wait. *)
Definition five_queued_unset : World :=
  final (calls (repeat CallEnter 6) (fresh unset_group 7)).

(** Response headers with limit 5 and remaining 4: the first request of a
    window of five. *)
Definition limit_five_one_used : Headers :=
  mkHeaders (Some 5) (Some 4) (Some 1002%Q) (Some 2%Q) (Some 1000%Q).

(** A fresh optimistic handler after two requests without a limit header
    (its size is [-3]) and eight callers then: three have entered and five
    wait. *)
Definition five_queued_widened : World :=
  final (calls (rounds 2 0 ++ repeat CallEnter 8) (fresh optimistic_group 7)).

(** Response headers with limit 2 and remaining 1. *)
Definition limit_two : Headers :=
  mkHeaders (Some 2) (Some 1) (Some 1002%Q) (Some 2%Q) (Some 1000%Q).

End HandlerSpec.

(** ** The rest of the handler: truth value, comparison, hash and context *)

Module HandlerMore.
Import Handler HandlerSpec.

(** [RatelimitGroup.__hash__] *)
Definition RatelimitGroup_hash (self : RatelimitGroup) : Z := group_id self.

(** [RatelimitHandler.__bool__] *)
Definition RatelimitHandler_bool (self : RatelimitHandler) : bool :=
  if negb (active self =? 0) then true
  else
    match drops self with
    | Some _ => true
    | None =>
        match queue self with
        | Some (_ :: _) => true
        | _ => false
        end
    end.

(** [RatelimitHandler.__ne__] *)
Definition handler_neb (self other : RatelimitHandler) : bool :=
  if negb (limiter_id self =? limiter_id other) then true
  else if negb (group_id (parent self) =? group_id (parent other)) then true
  else false.

(** [RatelimitHandler.__hash__] *)
Definition RatelimitHandler_hash (self : RatelimitHandler) : Z :=
  group_id (parent self) + limiter_id self.

(** The groups that successive calls [RatelimitGroup(limiter, optimistic)]
    make, as the class body of [RATELIMIT_GROUPS] does, one call for each
    pair of arguments. *)
Fixpoint make_groups (args : list (Limiter * bool))
    : M Z (list RatelimitGroup) :=
  match args with
  | [] => ret []
  | (limiter, optimistic) :: args =>
      group <- RatelimitGroup_new limiter optimistic ;;
      groups <- make_groups args ;;
      ret (group :: groups)
  end.

(** *** class [RatelimitHandlerCTX] *)

(** The context object ([exited]) with the handler it is the context of
    ([parent], here the world of that handler). *)
Record CtxWorld : Type := mkCtx {
  ctx_parent : World;
  exited : bool }.

(** [RatelimitHandler.ctx] and [RatelimitHandlerCTX.__init__] *)
Definition ctx (w : World) : CtxWorld := mkCtx w false.

(** A method of the handler, called on [self.parent]. *)
Definition on_parent {A} (m : M World A) : M CtxWorld A :=
  fun s =>
    match m (ctx_parent s) with
    | Ok a w => Ok a (mkCtx w (exited s))
    | Raised e w => Raised e (mkCtx w (exited s))
    end.

Definition set_exited (v : bool) : M CtxWorld unit :=
  modify (fun s => mkCtx (ctx_parent s) v).

(** [RatelimitHandlerCTX.exit(self, headers)] *)
Definition ctx_exit (headers : option Headers) (now : Q) : M CtxWorld unit :=
  set_exited true ;;;
  on_parent (exit headers now).

(** [RatelimitHandlerCTX.__exit__(self, exc_type, exc_val, exc_tb)] *)
Definition ctx___exit__ (now : Q) : M CtxWorld unit :=
  exited <- gets exited ;;
  if exited then ret tt
  else
    set_exited true ;;;
    on_parent (exit None now).

(** What the body of [with handler.ctx() as lock:] does with [lock]: it
    calls [lock.exit(headers)], or it ends without, or it raises before. *)
Inductive Body : Type :=
| BodyExits (headers : option Headers)
| BodyEnds
| BodyRaises (e : Exn).

Definition run_body (b : Body) (now : Q) : M CtxWorld unit :=
  match b with
  | BodyExits headers => ctx_exit headers now
  | BodyEnds => ret tt
  | BodyRaises e => raise e
  end.

(** The statement [with handler.ctx() as lock: body]: [__exit__] runs
    however the body ends, and as it returns [None] an exception of the body
    goes on after it. *)
Definition with_ctx (b : Body) (now : Q) : M CtxWorld unit :=
  fun s =>
    match run_body b now s with
    | Ok _ s' => ctx___exit__ now s'
    | Raised e s' =>
        match ctx___exit__ now s' with
        | Ok _ s'' => Raised e s''
        | Raised e' s'' => Raised e' s''
        end
    end.

(** *** Invariants of the handler *)

(** A computation that leaves a slot of the handler as it is, however it
    ends. *)
Definition keeps_slot {A B} (f : RatelimitHandler -> B) (m : M World A)
    : Prop :=
  forall w, f (self (final (m w))) = f (self w).

(** A computation that releases waiters from the front of the queue and
    does nothing else to the queue or to the futures. *)
Definition serves {A} (m : M World A) : Prop :=
  forall w, exists k : nat,
    released (trace (final (m w)))
      = released (trace w) ++ firstn k (pending (self w)) /\
    pending (self (final (m w))) = skipn k (pending (self w)) /\
    futures (final (m w)) = futures w.

(** The futures are released in the order of their creation, which is the
    order of the queue: those released and those still queued make up all
    the futures created. *)
Definition in_arrival_order (w : World) : Prop :=
  released (trace w) ++ pending (self w) = seq 0 (futures w).

(** A wakeup is scheduled exactly when the ledger has a node, and no later
    than the expiry of its first node. *)
Definition scheduled_in_time (h : RatelimitHandler) : Prop :=
  match drops h, wakeupper h with
  | None, None => True
  | Some u, Some t => (when t <= drop u)%Q
  | _, _ => False
  end.

(** The ledger and the scheduled wakeup of a handler. *)
Definition ledger_and_timer (h : RatelimitHandler)
  : option RatelimitUnit * option Handle := (drops h, wakeupper h).

End HandlerMore.

(** ** The rest of the proxy *)

Module ProxyMore.
Import Handler Proxy.

(** [RatelimitProxy.is_limited_by_channel] and its four siblings *)
Definition is_limited_by_channel (self : RatelimitProxy) : bool :=
  match limiter (group self) with LIMITER_CHANNEL => true | _ => false end.
Definition is_limited_by_guild (self : RatelimitProxy) : bool :=
  match limiter (group self) with LIMITER_GUILD => true | _ => false end.
Definition is_limited_by_webhook (self : RatelimitProxy) : bool :=
  match limiter (group self) with LIMITER_WEBHOOK => true | _ => false end.
Definition is_limited_globally (self : RatelimitProxy) : bool :=
  match limiter (group self) with LIMITER_GLOBAL => true | _ => false end.
Definition is_unlimited (self : RatelimitProxy) : bool :=
  match limiter (group self) with LIMITER_UNLIMITED => true | _ => false end.

(** [RatelimitProxy.has_size_set] *)
Definition has_size_set (self : RatelimitProxy) : bool :=
  size (group self) >? 0.

(** [RatelimitProxy.__hash__] *)
Definition RatelimitProxy_hash (s : ProxyWorld) : option Z :=
  option_map (fun key => Z.lxor (group_id (group (proxy s))) (limiter_id key))
             (deref (memory s) (_key (proxy s))).

(** Assignments to the slots of the proxy, and calls on the memory. *)
Definition set__handler (v : option Addr) : M ProxyWorld unit :=
  modify (fun s => mkProxyWorld (mkProxy v (_key (proxy s)) (group (proxy s)))
                                (memory s)).
Definition set__key (v : Addr) : M ProxyWorld unit :=
  modify (fun s => mkProxyWorld
                     (mkProxy (_handler (proxy s)) v (group (proxy s)))
                     (memory s)).
Definition in_memory {A} (m : M Memory A) : M ProxyWorld A :=
  fun s =>
    match m (memory s) with
    | Ok a mem => Ok a (mkProxyWorld (proxy s) mem)
    | Raised e mem => Raised e (mkProxyWorld (proxy s) mem)
    end.

(** [handler()] for a weak reference [handler]: the object, by its
    identity, while it is alive. *)
Definition call_ref (a : Addr) : M ProxyWorld (option Addr) :=
  gets (fun s => match deref (memory s) a with
                 | Some _ => Some a
                 | None => None
                 end).

(** The getter of the property [keep_alive] *)
Definition get_keep_alive : M ProxyWorld bool :=
  handler <- gets (fun s => _handler (proxy s)) ;;
  match handler with
  | None => ret false
  | Some handler =>
      handler <- call_ref handler ;;
      key <- gets (fun s => _key (proxy s)) ;;
      match handler with
      | Some handler => ret (Nat.eqb handler key)
      | None => ret false
      end
  end.

(** The setter of the property [keep_alive] *)
Definition set_keep_alive (value : bool) : M ProxyWorld unit :=
  if value then
    handler <- gets (fun s => _handler (proxy s)) ;;
    handler <-
      (match handler with
       | None => ret None
       | Some handler => call_ref handler
       end) ;;
    match handler with
    | Some handler =>
        key <- gets (fun s => _key (proxy s)) ;;
        if negb (Nat.eqb key handler) then set__key handler else ret tt
    | None =>
        key <- gets (fun s => _key (proxy s)) ;;
        handler <- in_memory (handlers_set key) ;;
        (if negb (Nat.eqb handler key) then set__key handler else ret tt) ;;;
        set__handler (Some handler)
    end
  else
    handler <- gets (fun s => _handler (proxy s)) ;;
    match handler with
    | None => ret tt
    | Some handler =>
        handler <- call_ref handler ;;
        match handler with
        | None => ret tt
        | Some handler =>
            key <- gets (fun s => _key (proxy s)) ;;
            if Nat.eqb key handler then
              object <- gets (fun s => deref (memory s) handler) ;;
              match object with
              | Some object =>
                  new <- in_memory (allocate (copy object)) ;;
                  set__key new
              | None => ret tt (* not reached: [handler] is alive *)
              end
            else ret tt
        end
    end.

(** How a call of the coroutine [wait_till_limits_expire] goes on. *)
Inductive Waited : Type :=
| WaitReturned
| WaitAwaiting.

(** [RatelimitProxy.wait_till_limits_expire], up to its return or its
    [await]; the future it waits on belongs to the waiting thread and is
    left out. *)
Definition wait_till_limits_expire : M ProxyWorld Waited :=
  handler <- gets (fun s => _handler (proxy s)) ;;
  handler <-
    (match handler with
     | None => ret None
     | Some handler => call_ref handler
     end) ;;
  handler <-
    (match handler with
     | Some handler => ret (Some handler)
     | None =>
         key <- gets (fun s => deref (memory s) (_key (proxy s))) ;;
         match key with
         | Some key => gets (fun s => handlers_get (memory s) key)
         | None => ret None (* not reached: [_key] is a strong reference *)
         end
     end) ;;
  match handler with
  | None => ret WaitReturned
  | Some handler =>
      key <- gets (fun s => _key (proxy s)) ;;
      if Nat.eqb handler key then raise RuntimeError
      else
        set__handler (Some handler) ;;;
        ret WaitAwaiting
  end.

(** What [RatelimitProxy(client, group, limiter)] gives: the [limiter_id] of
    the proxy made, or the exception raised. *)
Definition resolved (group : RatelimitGroup) (scope : Scope) (m : Memory)
    : Exn + option Z :=
  match RatelimitProxy_new group scope false m with
  | Ok p m' => inr (proxy_limiter_id p m')
  | Raised e _ => inl e
  end.

(** The scope is a channel or a message; a webhook or its representation. *)
Definition of_channel (scope : Scope) : bool :=
  match scope with
  | Channel _ _ | Message _ _ _ => true
  | _ => false
  end.

Definition of_webhook (scope : Scope) : bool :=
  match scope with
  | Webhook _ _ | WebhookRepr _ _ => true
  | _ => false
  end.

(** The memory is as allocation leaves it: every object alive has an
    identity below the next one, and the key of the proxy is alive. *)
Definition well_formed (s : ProxyWorld) : Prop :=
  (forall a, deref (memory s) a <> None -> (a < next_addr (memory s))%nat) /\
  deref (memory s) (_key (proxy s)) <> None.

End ProxyMore.

(** ** The global lock: [ratelimit_global] *)

Module Session.

(** The session's [global_lock], the futures made so far, and what the
    future and the loop are asked: [add_done_callback] with a
    [global_lock_canceller] of the session, and [call_later(retry_after,
    set_result_if_pending, future, None)]. *)
Inductive Asked : Type :=
| AddCanceller (future : nat)
| CallLater (retry_after : Q) (future : nat).

Record SessionWorld : Type := mkSession {
  global_lock : option nat;
  made : nat;
  asked : list Asked }.

(** [global_lock_canceller.__call__(self, future)] *)
Definition global_lock_canceller : M SessionWorld unit :=
  modify (fun s => mkSession None (made s) (asked s)).

(** [ratelimit_global(session, retry_after)] *)
Definition ratelimit_global (retry_after : Q) : M SessionWorld nat :=
  future <- gets global_lock ;;
  match future with
  | Some future => ret future
  | None =>
      future <- (fun s => Ok (made s)
                             (mkSession (global_lock s) (S (made s)) (asked s))) ;;
      modify (fun s => mkSession (global_lock s) (made s)
                                 (asked s ++ [AddCanceller future])) ;;;
      modify (fun s => mkSession (Some future) (made s) (asked s)) ;;;
      modify (fun s => mkSession (global_lock s) (made s)
                                 (asked s ++ [CallLater retry_after future])) ;;;
      ret future
  end.

(** Calls of [ratelimit_global] one after the other: the futures they
    return. *)
Fixpoint ratelimit_globals (retries : list Q) : M SessionWorld (list nat) :=
  match retries with
  | [] => ret []
  | retry_after :: retries =>
      future <- ratelimit_global retry_after ;;
      futures <- ratelimit_globals retries ;;
      ret (future :: futures)
  end.

End Session.

(** * Properties *)

Lemma Qltb_lt (a b : Q) : Qltb a b = true <-> (a < b)%Q.
Proof. unfold Qltb, Qlt. apply Z.ltb_lt. Qed.

Lemma Qltb_ge (a b : Q) : Qltb a b = false <-> (b <= a)%Q.
Proof. unfold Qltb, Qle. rewrite Z.ltb_ge. reflexivity. Qed.

Lemma bind_ok {S A B} (m : M S A) (k : A -> M S B) (s s' : S) (a : A) :
  m s = Ok a s' -> bind m k s = k a s'.
Proof. intros H. unfold bind. now rewrite H. Qed.


Module LedgerFacts.
Import Ledger.

Lemma round_pos : (0 < RATELIMIT_DROP_ROUND)%Q.
Proof. reflexivity. Qed.

Lemma Qmin_keep (x d : Q) : Qmin x d = if Qltb d x then d else x.
Proof.
  unfold Qmin, GenericMinMax.gmin.
  destruct (x ?= d)%Q eqn:E.
  - apply Qeq_alt in E.
    assert (H : Qltb d x = false) by (apply Qltb_ge; lra).
    now rewrite H.
  - apply Qlt_alt in E.
    assert (H : Qltb d x = false) by (apply Qltb_ge; lra).
    now rewrite H.
  - apply Qgt_alt in E.
    assert (H : Qltb d x = true) by (apply Qltb_lt; lra).
    now rewrite H.
Qed.

Lemma within_true (x d : Q) :
  Qltb (d + RATELIMIT_DROP_ROUND) x = false ->
  Qltb x (d - RATELIMIT_DROP_ROUND) = false ->
  within x d = true.
Proof.
  intros H1 H2. apply Qltb_ge in H1. apply Qltb_ge in H2.
  unfold within. apply negb_true_iff, Qltb_ge.
  apply Qabs_case; intros; lra.
Qed.

Lemma within_false_above (x d : Q) :
  Qltb (d + RATELIMIT_DROP_ROUND) x = true -> within x d = false.
Proof.
  intros H. apply Qltb_lt in H.
  unfold within. apply negb_false_iff, Qltb_lt.
  apply Qabs_case; intros; lra.
Qed.

Lemma within_false_below (x d : Q) :
  Qltb x (d - RATELIMIT_DROP_ROUND) = true -> within x d = false.
Proof.
  intros H. apply Qltb_lt in H.
  unfold within. apply negb_false_iff, Qltb_lt.
  apply Qabs_case; intros; lra.
Qed.

Lemma exceeds_above (x d : Q) :
  exceeds x d = Qltb (d + RATELIMIT_DROP_ROUND) x.
Proof.
  unfold exceeds.
  destruct (Qltb (d + RATELIMIT_DROP_ROUND) x) eqn:E.
  - apply Qltb_lt in E. apply Qltb_lt. lra.
  - apply Qltb_ge in E. apply Qltb_ge. lra.
Qed.

Lemma to_list_unfold (u : RatelimitUnit) :
  to_list u = (drop u, allocates u) :: chain (next u).
Proof. destruct u as [d a [n|]]; reflexivity. Qed.

(** The head test of [insert_spec] on a chain, in the code's comparisons. *)
Lemma insert_spec_head (d : Q) (a : Z) (x : Q) (b : Z) (tl : list (Q * Z)) :
  insert_spec d a ((x, b) :: tl) =
    if Qltb (d + RATELIMIT_DROP_ROUND) x then (d, a) :: (x, b) :: tl
    else if Qltb x (d - RATELIMIT_DROP_ROUND) then (x, b) :: insert_spec d a tl
    else ((if Qltb d x then d else x), b + a) :: tl.
Proof.
  cbn [insert_spec].
  destruct (Qltb (d + RATELIMIT_DROP_ROUND) x) eqn:E1.
  - rewrite (within_false_above _ _ E1), exceeds_above, E1. reflexivity.
  - destruct (Qltb x (d - RATELIMIT_DROP_ROUND)) eqn:E2.
    + rewrite (within_false_below _ _ E2), exceeds_above, E1. reflexivity.
    + rewrite (within_true _ _ E1 E2), Qmin_keep. reflexivity.
Qed.

(** The loop from [last] leaves [last] in place and inserts in what follows. *)
Lemma walk_to_list (d : Q) (a : Z) (last : RatelimitUnit) :
  to_list (walk d a last) =
    (drop last, allocates last) :: insert_spec d a (chain (next last)).
Proof.
  induction last as [ld la | ld la actual IH] using unit_chain_ind.
  - reflexivity.
  - cbn [walk drop allocates next chain].
    rewrite (to_list_unfold actual), insert_spec_head.
    destruct (Qltb (d + RATELIMIT_DROP_ROUND) (drop actual)).
    + cbn [to_list]. now rewrite (to_list_unfold actual).
    + destruct (Qltb (drop actual) (d - RATELIMIT_DROP_ROUND)).
      * cbn [to_list]. now rewrite IH.
      * cbn [to_list]. destruct (next actual); reflexivity.
Qed.

Lemma update_with_refines (self : RatelimitUnit) (d : Q) (a : Z) :
  to_list (update_with self d a) = insert_spec d a (to_list self).
Proof.
  rewrite (to_list_unfold self), insert_spec_head.
  unfold update_with.
  destruct (Qltb (d + RATELIMIT_DROP_ROUND) (drop self)).
  - cbn [to_list drop allocates next]. destruct (next self); reflexivity.
  - destruct (Qltb (drop self) (d - RATELIMIT_DROP_ROUND)).
    + apply walk_to_list.
    + rewrite to_list_unfold. reflexivity.
Qed.

Section Apart.

Variable g : Q.
Hypothesis g_round : (g <= RATELIMIT_DROP_ROUND)%Q.




End Apart.



Lemma count_from_shift (u : RatelimitUnit) (r : Z) :
  count_from u r = r + count_from u 0.
Proof.
  revert r. induction u as [d a | d a n IH] using unit_chain_ind; intros r.
  - cbn. lia.
  - cbn. rewrite (IH (r + a)), (IH a). lia.
Qed.

Lemma count_from_total (u : RatelimitUnit) :
  count_from u 0 = fold_right Z.add 0 (map snd (to_list u)).
Proof.
  induction u as [d a | d a n IH] using unit_chain_ind.
  - cbn. lia.
  - cbn [count_from to_list map fold_right snd].
    rewrite count_from_shift, IH. lia.
Qed.

Lemma total_insert (d : Q) (a : Z) (l : list (Q * Z)) :
  fold_right Z.add 0 (map snd (insert_spec d a l)) =
  fold_right Z.add 0 (map snd l) + a.
Proof.
  induction l as [|[x b] tl IH].
  - cbn. lia.
  - cbn [insert_spec].
    destruct (within x d); [cbn; lia|].
    destruct (exceeds x d); [cbn; lia|].
    cbn [map fold_right snd]. rewrite IH. lia.
Qed.

End LedgerFacts.

(** ** The ledger on doubles *)

(** The order of the doubles, from the specification of [<] and [<=] on
    binary64. *)
Module Float64Facts.
Import PrimFloat SpecFloat FloatOps FloatAxioms.

Ltac order_cases x y z :=
  unfold SFltb, SFleb, SFcompare;
  destruct x as [sx|sx| |sx mx ex], y as [sy|sy| |sy my ey],
           z as [sz|sz| |sz mz ez];
  try destruct sx; try destruct sy; try destruct sz; cbn; try congruence;
  destruct (Z.compare_spec ex ey), (Z.compare_spec ey ez),
           (Z.compare_spec ex ez); try congruence; try lia; subst;
  fold (Pos.compare mx my); fold (Pos.compare my mz); fold (Pos.compare mx mz);
  destruct (Pos.compare_spec mx my), (Pos.compare_spec my mz),
           (Pos.compare_spec mx mz); cbn; try congruence; lia.

Lemma SFltb_trans (x y z : spec_float) :
  SFltb x y = true -> SFltb y z = true -> SFltb x z = true.
Proof. order_cases x y z. Qed.



Lemma SFltb_irrefl (x : spec_float) : SFltb x x = false.
Proof.
  unfold SFltb, SFcompare.
  destruct x as [s|s| |s m e]; try destruct s; cbn; try reflexivity.
  all: rewrite Z.compare_refl; fold (Pos.compare m m);
    rewrite Pos.compare_refl; reflexivity.
Qed.

Lemma ltb_trans (x y z : float) :
  (x <? y)%float = true -> (y <? z)%float = true -> (x <? z)%float = true.
Proof. rewrite !ltb_spec. apply SFltb_trans. Qed.



Lemma ltb_irrefl (x : float) : (x <? x)%float = false.
Proof. rewrite ltb_spec. apply SFltb_irrefl. Qed.

End Float64Facts.

Module Ledger64Facts.
Import PrimFloat Ledger64 Float64Facts.

Lemma to_list_cons (u : RatelimitUnit) :
  to_list u = (drop u, allocates u) :: chain (next u).
Proof. destruct u as [d a [n|]]; reflexivity. Qed.

(** The head test of [insert_spec], in the order of the code's tests. *)
Lemma insert_spec_tests (d : float) (a : Z) (x : float) (b : Z)
    (tl : list (float * Z)) :
  insert_spec d a ((x, b) :: tl) =
    if (d + RATELIMIT_DROP_ROUND <? x)%float then (d, a) :: (x, b) :: tl
    else if (x <? d - RATELIMIT_DROP_ROUND)%float
         then (x, b) :: insert_spec d a tl
         else ((if (d <? x)%float then d else x), b + a) :: tl.
Proof.
  cbn [insert_spec]. unfold within, exceeds, precedes, smaller.
  destruct (d + RATELIMIT_DROP_ROUND <? x)%float;
    destruct (x <? d - RATELIMIT_DROP_ROUND)%float; reflexivity.
Qed.

(** The loop from [last] leaves [last] in place and inserts in what follows. *)
Lemma walk_inserts (d : float) (a : Z) (last : RatelimitUnit) :
  to_list (walk d a last) =
    (drop last, allocates last) :: insert_spec d a (chain (next last)).
Proof.
  induction last as [ld la | ld la actual IH] using unit_chain_ind.
  - reflexivity.
  - cbn [walk drop allocates next chain].
    rewrite (to_list_cons actual), insert_spec_tests.
    destruct (d + RATELIMIT_DROP_ROUND <? drop actual)%float.
    + cbn [to_list]. now rewrite (to_list_cons actual).
    + destruct (drop actual <? d - RATELIMIT_DROP_ROUND)%float.
      * cbn [to_list]. now rewrite IH.
      * cbn [to_list]. destruct (next actual); reflexivity.
Qed.

Lemma update_with_inserts (self : RatelimitUnit) (d : float) (a : Z) :
  to_list (update_with self d a) = insert_spec d a (to_list self).
Proof.
  rewrite (to_list_cons self), insert_spec_tests.
  unfold update_with.
  destruct (d + RATELIMIT_DROP_ROUND <? drop self)%float.
  - cbn [to_list drop allocates next]. destruct (next self); reflexivity.
  - destruct (drop self <? d - RATELIMIT_DROP_ROUND)%float.
    + apply walk_inserts.
    + rewrite to_list_cons. reflexivity.
Qed.

(** Where the rounded sum is not below [d] and the rounded difference not
    above it, the insertion keeps the order. *)
Section Rounded.

Variable d : float.
Hypothesis sum_above : (d <=? d + RATELIMIT_DROP_ROUND)%float = true.
Hypothesis difference_below : (d - RATELIMIT_DROP_ROUND <=? d)%float = true.



End Rounded.

Lemma insert_spec_total_length (d : float) (a : Z) (l : list (float * Z)) :
  (length l <= length (insert_spec d a l) <= S (length l))%nat.
Proof.
  induction l as [|[x b] tl IH]; cbn [insert_spec].
  - cbn. lia.
  - destruct (within x d); [cbn; lia|].
    destruct (exceeds x d); cbn; lia.
Qed.

(** In an ascending ledger every node after one that exceeds [d] by more
    than the tolerance does so too. *)
Lemma ascending_all_exceed (d x : float) (b : Z) (l : list (float * Z)) :
  ascending ((x, b) :: l) -> exceeds x d = true ->
  existsb (fun p => within (fst p) d) l = false.
Proof.
  revert x b. induction l as [|[y c] tl IH]; intros x b Hl Hx; [reflexivity|].
  cbn [existsb fst]. destruct Hl as [Hxy Htl]. cbn in Hxy.
  assert (Hy : exceeds y d = true).
  { unfold exceeds in *. now apply ltb_trans with x. }
  unfold within at 1. rewrite Hy. cbn [negb andb orb].
  now apply IH with y c.
Qed.

Lemma insert_spec_length (d : float) (a : Z) (l : list (float * Z)) :
  ascending l ->
  length (insert_spec d a l) =
    if existsb (fun p => within (fst p) d) l then length l else S (length l).
Proof.
  induction l as [|[x b] tl IH]; intros Hl; [reflexivity|].
  cbn [insert_spec existsb fst].
  destruct (within x d) eqn:E1; [reflexivity|]. cbn [orb].
  destruct (exceeds x d) eqn:E2.
  - now rewrite (ascending_all_exceed d x b tl Hl E2).
  - cbn [length]. rewrite IH by apply Hl.
    destruct (existsb _ tl); reflexivity.
Qed.

Lemma insert_spec_represents (d : float) (a : Z) (l : list (float * Z)) :
  exists x b, In (x, b) (insert_spec d a l) /\
              (d <? x)%float = false /\ (x = d \/ precedes x d = false).
Proof.
  induction l as [|[x b] tl IH].
  - exists d, a. split; [now left|]. split; [apply ltb_irrefl | now left].
  - rewrite insert_spec_tests.
    destruct (d + RATELIMIT_DROP_ROUND <? x)%float eqn:E1.
    + exists d, a. split; [now left|]. split; [apply ltb_irrefl | now left].
    + destruct (x <? d - RATELIMIT_DROP_ROUND)%float eqn:E2.
      * destruct IH as (y & c & Hin & Hy). exists y, c.
        split; [now right | exact Hy].
      * destruct (d <? x)%float eqn:E3.
        -- exists d, (b + a). split; [now left|].
           split; [apply ltb_irrefl | now left].
        -- exists x, (b + a). split; [now left|].
           split; [exact E3 | now right].
Qed.




(** At the tolerance the rounding decides: the sum of 0.6 and 0.20 is the
    double 0.8, so [update_with(0.6, 1)] merges into the single node
    (0.8, 1); and [update_with(0.20, 1)] merges into the single node
    (0.0, 1), whose expiry stays. *)
Lemma update_with_at_boundary :
  (drop_0_6 + RATELIMIT_DROP_ROUND)%float = drop_0_8 /\
  update_with (new_unit drop_0_8 1) drop_0_6 1 = new_unit drop_0_6 2 /\
  update_with (new_unit 0 1) RATELIMIT_DROP_ROUND 1 = new_unit 0 2.
Proof. repeat split; vm_compute; reflexivity. Qed.

(** X2: [update_with] never drops a node and makes at most one; on an
    ascending ledger it makes none exactly when some node is within the
    tolerance of the new expiry, as the two tests of the code decide it. *)
Theorem update_with_length (u : RatelimitUnit) (d : float) (a : Z) :
  (length (to_list u) <= length (to_list (update_with u d a))
   <= S (length (to_list u)))%nat /\
  (ascending (to_list u) ->
   length (to_list (update_with u d a)) =
     if existsb (fun p => within (fst p) d) (to_list u)
     then length (to_list u) else S (length (to_list u))).
Proof.
  rewrite update_with_inserts. split.
  - apply insert_spec_total_length.
  - apply insert_spec_length.
Qed.

Lemma update_with_length_witness :
  length (to_list (update_with (update_with (new_unit 10 1) 20 1) drop_10_15 2))
  = 2%nat.
Proof.
  apply (update_with_length (update_with (new_unit 10 1) 20 1) drop_10_15 2).
  vm_compute. auto.
Defined.

(** X3: after [update_with(drop, allocates)] some node of the ledger does
    not expire after [drop], and it expires at [drop] or is not below the
    rounded [drop - 0.20]: a cooldown is never recorded as ending later than
    asked. *)
Theorem update_with_represents (u : RatelimitUnit) (d : float) (a : Z) :
  exists x b, In (x, b) (to_list (update_with u d a)) /\
              (d <? x)%float = false /\ (x = d \/ precedes x d = false).
Proof. rewrite update_with_inserts. apply insert_spec_represents. Qed.

End Ledger64Facts.

(** ** The handler *)

Module HandlerFacts.
Import Handler HandlerSpec.

(** Case analysis on the tests of the code, and their arithmetic. *)
Ltac split_ifs :=
  repeat match goal with
         | |- context [if ?b then _ else _] =>
             let E := fresh "E" in destruct b eqn:E
         end.

Ltac unfold_slots :=
  unfold count_drops, set_queue, set_active, set_drops, set_wakeupper,
    set_size in *;
  cbn [parent limiter_id drops active queue wakeupper self futures trace
       size group_id limiter] in *.

Ltac to_arith :=
  repeat match goal with
         | H : (_ || _) = true |- _ => apply orb_true_iff in H
         | H : (_ || _) = false |- _ => apply orb_false_iff in H; destruct H
         | H : negb _ = true |- _ => apply negb_true_iff in H
         | H : negb _ = false |- _ => apply negb_false_iff in H
         | H : (_ <=? _) = true |- _ => apply Z.leb_le in H
         | H : (_ <=? _) = false |- _ => apply Z.leb_gt in H
         | H : (_ <? _) = true |- _ => apply Z.ltb_lt in H
         | H : (_ <? _) = false |- _ => apply Z.ltb_ge in H
         | H : (_ >? _) = true |- _ => rewrite Z.gtb_ltb in H
         | H : (_ >? _) = false |- _ => rewrite Z.gtb_ltb in H
         | H : (_ =? _) = true |- _ => apply Z.eqb_eq in H
         | H : (_ =? _) = false |- _ => apply Z.eqb_neq in H
         end.

(** *** Releasing waiters *)

Lemma free_loop_eq (n : nat) :
  forall (w : World) (q : list Future),
    queue (self w) = Some q -> (n <= length q)%nat ->
    free_loop n w = Ok tt (release n w).
Proof.
  induction n as [|n IH]; intros [[p lid dr act qu wk] futs tr] q Hq Hn;
    cbn in Hq; subst qu.
  - unfold release. cbn. now rewrite app_nil_r.
  - destruct q as [|f q]; [cbn in Hn; lia|].
    cbn [free_loop]. unfold bind at 1. cbn.
    rewrite (IH _ q); [|reflexivity|cbn in Hn; lia].
    unfold release. cbn. now rewrite <- app_assoc.
Qed.

Lemma capped_le (c : Z) (w : World) :
  (capped c w <= length (pending (self w)))%nat.
Proof. unfold capped. lia. Qed.

Lemma free_waiters_eq (c : Z) (w : World) (q : list Future) :
  queue (self w) = Some q ->
  free_waiters (if c >? Z.of_nat (length q) then Z.of_nat (length q) else c) w
  = Ok tt (release (capped c w) w).
Proof.
  intros Hq. unfold free_waiters.
  assert (Hp : pending (self w) = q) by (unfold pending; now rewrite Hq).
  assert (E : Z.to_nat (if c >? Z.of_nat (length q)
                        then Z.of_nat (length q) else c) = capped c w).
  { unfold capped. rewrite Hp. f_equal.
    destruct (c >? Z.of_nat (length q)) eqn:E; to_arith; lia. }
  rewrite E. apply free_loop_eq with q; [exact Hq|].
  rewrite <- Hp. apply capped_le.
Qed.

(** *** wakeup *)

Lemma wakeup_advance_eq (w : World) :
  wakeup_advance w =
    Ok tt (let rest := advance (drops (self w)) in
           mkWorld
             (set_wakeupper (option_map (fun u => mkHandle (drop u)) rest)
                (set_drops rest (self w)))
             (futures w)
             (trace w ++ match rest with
                         | Some u => [CallAt (mkHandle (drop u))]
                         | None => []
                         end)).
Proof.
  destruct w as [[p lid dr act qu wk] futs tr].
  unfold wakeup_advance, advance.
  destruct dr as [[d a [n|]]|]; cbn; now rewrite ?app_nil_r.
Qed.

Lemma wakeup_release_eq (w : World) (q : list Future) :
  queue (self w) = Some q ->
  wakeup_release w =
    Ok tt (release
             (capped (Z.abs (size (parent (self w))) - active (self w)
                      - count_drops (self w)) w) w).
Proof.
  intros Hq. unfold wakeup_release.
  assert (Hp : pending (self w) = q) by (unfold pending; now rewrite Hq).
  assert (Hl : queue_len w = Ok (Z.of_nat (length q)) w).
  { unfold queue_len, bind, read, gets. now rewrite Hq. }
  rewrite (bind_ok _ _ _ _ _ Hl).
  destruct (Z.of_nat (length q) =? 0) eqn:E.
  - apply Z.eqb_eq in E.
    assert (Hnil : q = []) by (destruct q; [easy | cbn in E; lia]).
    rewrite Hnil in *. unfold release, capped. rewrite Hp.
    replace (Z.to_nat _) with O by (cbn [length]; lia).
    cbn. rewrite app_nil_r.
    destruct w as [[p lid dr act qu wk] futs tr]. cbn in *. now subst qu.
  - unfold bind at 1, read at 1, gets. unfold bind at 1, read at 1, gets.
    unfold bind at 1, read at 1, gets.
    replace (if size (parent (self w)) <? 0 then - size (parent (self w))
             else size (parent (self w)))
      with (Z.abs (size (parent (self w))))
      by (destruct (size (parent (self w)) <? 0) eqn:E1; to_arith; lia).
    now apply free_waiters_eq.
Qed.

Lemma wakeup_release_none (w : World) :
  queue (self w) = None -> wakeup_release w = Raised TypeError w.
Proof.
  intros Hq. unfold wakeup_release, queue_len, bind, read, gets.
  now rewrite Hq.
Qed.

Lemma wakeup_eq (w : World) (q : list Future) :
  queue (self w) = Some q -> wakeup w = Ok tt (wakeup_world w).
Proof.
  intros Hq. unfold wakeup.
  rewrite (bind_ok _ _ _ _ _ (wakeup_advance_eq w)).
  cbv zeta. erewrite wakeup_release_eq; [reflexivity|].
  destruct w as [[p lid dr act qu wk] futs tr]. exact Hq.
Qed.

(** *** exit *)


Lemma exit_schedule_eq (d : Q) (a : Z) (w : World) :
  exit_schedule d a w = Ok tt (record_world d a w).
Proof.
  destruct w as [[p lid dr act qu wk] futs tr].
  unfold exit_schedule, record_world.
  destruct dr as [u|], wk as [h|]; try destruct (Qltb d (when h)) eqn:E;
    cbn -[update_with]; rewrite ?E; cbn -[update_with];
    rewrite <- ?app_assoc; reflexivity.
Qed.


(** [exit] with the explicit limit [lim], up to the reading of the delay.
    The remaining count is read only when the cached size is [-1] and the
    limit is above it. *)
Lemma exit_limit_resized (headers : Headers) (now : Q) (w : World)
    (lim r : Z) (q : list Future) :
  size_of w <> UNLIMITED_SIZE_VALUE ->
  RATELIMIT_LIMIT headers = Some lim ->
  (size_of w = -1 -> -1 < lim -> RATELIMIT_REMAINING headers = Some r) ->
  queue (self w) = Some q ->
  let cur := size_of w in
  let w1 :=
    mkWorld (set_size lim (set_active (active (self w) - 1) (self w)))
            (futures w) (trace w) in
  let k :=
    if lim >? cur then capped (lim - (if cur =? -1 then 1 else cur)) w1
    else O in
  let a := if (lim >? cur) && (cur =? -1) then lim - r else 1 in
  exit (Some headers) now w =
    (delay <- exit_delay headers false ;; exit_schedule (now + delay)%Q a)
      (release k w1).
Proof.
  intros Hu Hl Hr Hq. cbv zeta. unfold exit.
  unfold bind at 1, read at 1, gets. fold (size_of w).
  apply Z.eqb_neq in Hu. rewrite Hu.
  unfold bind at 1, read at 1, gets. unfold bind at 1, assign, modify.
  rewrite Hl. unfold exit_record.
  destruct w as [[[gid lm sz] lid dr act qu wk] futs tr].
  unfold size_of in *. cbn in Hq, Hu, Hr |- *. subst qu.
  match goal with |- bind _ ?k _ = _ => set (rest := k) end.
  unfold exit_resize.
  destruct (lim =? sz) eqn:E1.
  - apply Z.eqb_eq in E1. subst lim. rewrite Z.gtb_ltb, Z.ltb_irrefl.
    cbn. unfold release. cbn. now rewrite app_nil_r.
  - cbn [negb]. unfold bind at 1. cbn -[free_waiters release capped rest].
    destruct (lim >? sz) eqn:E2; cbn [andb].
    + destruct (sz =? -1) eqn:E3.
      * rewrite Hr by (to_arith; lia).
        cbn -[free_waiters release capped rest].
        match goal with
        | |- context [bind (free_waiters (if ?c >? _ then _ else _)) ?k ?W] =>
            rewrite (bind_ok _ k W _ _ (free_waiters_eq c W q eq_refl))
        end.
        reflexivity.
      * cbn -[free_waiters release capped rest].
        match goal with
        | |- context [bind (free_waiters (if ?c >? _ then _ else _)) ?k ?W] =>
            rewrite (bind_ok _ k W _ _ (free_waiters_eq c W q eq_refl))
        end.
        reflexivity.
    + cbn. unfold release. cbn. now rewrite app_nil_r.
Qed.

(** *** The size of the descriptor *)

Lemma keeps_ret {A} (a : A) : keeps_size (ret a).
Proof. intros w. reflexivity. Qed.

Lemma keeps_raise {A} (e : Exn) : keeps_size (@raise World A e).
Proof. intros w. reflexivity. Qed.

Lemma keeps_bind {A B} (m : M World A) (k : A -> M World B) :
  keeps_size m -> (forall a, keeps_size (k a)) -> keeps_size (bind m k).
Proof.
  intros Hm Hk w. unfold bind. specialize (Hm w).
  destruct (m w) as [a s'|e s']; cbn in *.
  - now rewrite Hk.
  - exact Hm.
Qed.

Lemma keeps_read {A} (f : RatelimitHandler -> A) : keeps_size (read f).
Proof. intros w. reflexivity. Qed.

Lemma keeps_emit (e : LoopEvent) : keeps_size (emit e).
Proof. intros w. reflexivity. Qed.

Lemma keeps_new_future : keeps_size new_future.
Proof. intros w. reflexivity. Qed.

Lemma keeps_assign (f : RatelimitHandler -> RatelimitHandler) :
  (forall h, size (parent (f h)) = size (parent h)) -> keeps_size (assign f).
Proof. intros Hf w. unfold size_of. cbn. apply Hf. Qed.

Lemma keeps_item {A} (v : option A) : keeps_size (item v).
Proof. destruct v; intros w; reflexivity. Qed.

Create HintDb keeps.

#[local] Hint Resolve keeps_read keeps_emit keeps_new_future keeps_item : keeps.

Ltac keeps_step :=
  match goal with
  | |- keeps_size (bind _ _) => apply keeps_bind; [|intros]
  | |- keeps_size (ret _) => apply keeps_ret
  | |- keeps_size (raise _) => apply keeps_raise
  | |- keeps_size (assign _) => apply keeps_assign; intros; reflexivity
  | |- keeps_size (if ?b then _ else _) => destruct b
  | |- keeps_size (match ?x with _ => _ end) => destruct x
  | |- keeps_size (let _ := _ in _) => cbv zeta
  | |- keeps_size _ => solve [auto with keeps nocore]
  end.

Ltac keeps := repeat keeps_step.

Lemma keeps_free_waiters (c : Z) : keeps_size (free_waiters c).
Proof.
  unfold free_waiters. induction (Z.to_nat c) as [|n IH]; cbn [free_loop].
  - keeps.
  - unfold queue_popleft. keeps.
Qed.

#[local] Hint Resolve keeps_free_waiters : keeps.

Lemma keeps_wakeup : keeps_size wakeup.
Proof.
  unfold wakeup, wakeup_advance, wakeup_release, queue_len, call_at. keeps.
Qed.

#[local] Hint Resolve keeps_wakeup : keeps.

Lemma keeps_exit_wakeup : keeps_size exit_wakeup.
Proof. unfold exit_wakeup. keeps. Qed.

Lemma keeps_exit_schedule (d : Q) (a : Z) : keeps_size (exit_schedule d a).
Proof. unfold exit_schedule, call_at. keeps. Qed.

Lemma keeps_exit_delay (headers : Headers) (o : bool) :
  keeps_size (exit_delay headers o).
Proof. unfold exit_delay. keeps. Qed.

#[local] Hint Resolve keeps_exit_wakeup keeps_exit_schedule keeps_exit_delay
  : keeps.

Lemma keeps_enter : keeps_size enter.
Proof. unfold enter, enter_sized, queue_append. keeps. Qed.

Lemma keeps_enter_resumed : keeps_size enter_resumed.
Proof. unfold enter_resumed. keeps. Qed.

(** [exit_resize] leaves [size] in the descriptor when it is called, as
    [exit] does, with the descriptor's size for [current_size]. *)
Lemma exit_resize_size (headers : Headers) (s : Z) (o : bool) (w : World) :
  size_of (final (exit_resize headers (size_of w) s o w)) = s.
Proof.
  unfold exit_resize. destruct (s =? size_of w) eqn:E; cbn [negb].
  - apply Z.eqb_eq in E. now rewrite E.
  - unfold bind at 1, assign at 1, modify.
    match goal with
    | |- size_of (final (?m ?w1)) = _ =>
        assert (K : keeps_size m); [|rewrite K; reflexivity]
    end.
    unfold queue_len. keeps.
Qed.

Lemma exit_record_size (headers : Headers) (now : Q) (s : Z) (o : bool)
    (w : World) :
  size_of (final (exit_record headers now (size_of w) s o w)) = s.
Proof.
  unfold exit_record. unfold bind at 1.
  pose proof (exit_resize_size headers s o w) as H.
  destruct (exit_resize headers (size_of w) s o w) as [a w1|e w1]; cbn in H.
  - rewrite <- H.
    assert (K : keeps_size (delay <- exit_delay headers o ;;
                            exit_schedule (now + delay)%Q a)).
    { keeps. }
    apply K.
  - exact H.
Qed.

Lemma exit_size (headers : option Headers) (now : Q) (w : World) :
  size_of (final (exit headers now w)) = size_after_exit headers (size_of w).
Proof.
  unfold exit, size_after_exit.
  unfold bind at 1, read at 1, gets. fold (size_of w).
  destruct (size_of w =? UNLIMITED_SIZE_VALUE); [reflexivity|].
  unfold bind at 1, read at 1, gets. unfold bind at 1, assign at 1, modify.
  set (w1 := with_self _ w).
  assert (Hw1 : size_of w = size_of w1) by reflexivity.
  destruct headers as [headers|].
  - destruct (RATELIMIT_LIMIT headers) as [lim|].
    + rewrite Hw1. apply exit_record_size.
    + destruct (size_of w <? 0); cbn [andb].
      * rewrite Hw1. apply exit_record_size.
      * rewrite Hw1. apply keeps_exit_wakeup.
  - rewrite Hw1. apply keeps_exit_wakeup.
Qed.

(** *** What the scheduling of a cooldown leaves alone *)

Lemma released_app (a b : list LoopEvent) :
  released (a ++ b) = released a ++ released b.
Proof.
  induction a as [|[f|h|h] a IH]; cbn; [reflexivity| |assumption|assumption].
  now rewrite IH.
Qed.

Lemma released_set (l : list Future) : released (map SetResult l) = l.
Proof. induction l as [|f l IH]; cbn; [reflexivity | now rewrite IH]. Qed.

Lemma cancelled_app (a b : list LoopEvent) :
  cancelled (a ++ b) = cancelled a ++ cancelled b.
Proof.
  induction a as [|[f|h|h] a IH]; cbn; [reflexivity|assumption|assumption|].
  now rewrite IH.
Qed.

Lemma cancelled_set (l : list Future) : cancelled (map SetResult l) = [].
Proof. induction l as [|f l IH]; cbn; [reflexivity | assumption]. Qed.

Lemma count_drops_total (h : RatelimitHandler) :
  count_drops h = ledger_total (chain (drops h)).
Proof.
  unfold count_drops, ledger_total, chain.
  destruct (drops h) as [u|]; [apply LedgerFacts.count_from_total | reflexivity].
Qed.

Lemma record_world_frame (d : Q) (a : Z) (w : World) :
  let w' := record_world d a w in
  queue (self w') = queue (self w) /\
  active (self w') = active (self w) /\
  released (trace w') = released (trace w) /\
  chain (drops (self w')) = insert_spec d a (chain (drops (self w))).
Proof.
  destruct w as [[p lid dr act qu wk] futs tr]. unfold record_world.
  cbn [self drops wakeupper].
  assert (Hc : chain (Some match dr with
                           | Some u => update_with u d a
                           | None => new_unit d a
                           end) = insert_spec d a (chain dr)).
  { destruct dr as [u|]; [apply LedgerFacts.update_with_refines | reflexivity]. }
  destruct wk as [h|]; [destruct (Qltb d (when h))|];
    cbn -[update_with chain]; rewrite ?released_app, ?app_nil_r; auto.
Qed.

(** The reading of the delay and the scheduling change neither the queue,
    nor [active], nor the futures released. *)
Lemma after_resize_frame (headers : Headers) (now : Q) (a : Z) (w : World) :
  let w' := final ((delay <- exit_delay headers false ;;
                    exit_schedule (now + delay)%Q a) w) in
  queue (self w') = queue (self w) /\
  active (self w') = active (self w) /\
  released (trace w') = released (trace w).
Proof.
  unfold exit_delay.
  destruct (RATELIMIT_RESET headers) as [reset|]; [|cbn; auto].
  destruct (DATE headers) as [date|]; [|cbn; auto].
  destruct (RATELIMIT_RESET_AFTER headers) as [after|]; [|cbn; auto].
  cbn -[exit_schedule]. unfold bind, ret. rewrite exit_schedule_eq.
  cbn [final]. pose proof (record_world_frame
    (now + (if Qltb (microseconds reset - date) after
            then microseconds reset - date else after))%Q a w).
  cbv zeta in H. tauto.
Qed.

Lemma release_frame (k : nat) (w : World) :
  let w' := release k w in
  size_of w' = size_of w /\
  active (self w') = active (self w) /\
  drops (self w') = drops (self w) /\
  queue (self w') = Some (skipn k (pending (self w))) /\
  released (trace w') = released (trace w) ++ firstn k (pending (self w)) /\
  cancelled (trace w') = cancelled (trace w).
Proof.
  unfold release. cbn.
  rewrite released_app, released_set, cancelled_app, cancelled_set, app_nil_r.
  repeat split.
Qed.

(** C3 at its failing inputs: on a handler that is not unlimited (and has
    its queue, as after any [enter]), [exit(headers)] with an explicit limit
    leaves that limit in the descriptor and takes one from [active]; when the
    cached size was [-1] (and the limit is above it) [allocates] is the limit
    minus the remaining count, else [1], and the ledger counts that many
    more once the delay is read. The waiters released are the first ones of
    the queue, as many as [limit - cached] when [limit > cached], with only
    a cached [-1] counted as [1]: for a cached [-1] and for a positive
    cached size this is the number of slots newly free, as the
    specification says. But a cached [0] is one slot and a cached negative
    size is as many slots as its absolute value, in [enter] and in [wakeup]:
    with a cached [0] a limit of 5 releases five waiters where four slots are
    newly free, and with a cached [-3] a limit of 2 releases five waiters
    where the capacity falls from 3 to 2. *)
Theorem exit_with_limit (headers : Headers) (now : Q) (w : World)
    (lim r : Z) (q : list Future) :
  size_of w <> UNLIMITED_SIZE_VALUE ->
  RATELIMIT_LIMIT headers = Some lim ->
  (size_of w = -1 -> -1 < lim -> RATELIMIT_REMAINING headers = Some r) ->
  queue (self w) = Some q ->
  let cur := size_of w in
  let k :=
    if lim >? cur
    then Z.to_nat (Z.min (lim - (if cur =? -1 then 1 else cur))
                         (Z.of_nat (length q)))
    else O in
  let a := if (lim >? cur) && (cur =? -1) then lim - r else 1 in
  let w' := final (exit (Some headers) now w) in
  size_of w' = lim /\
  active (self w') = active (self w) - 1 /\
  queue (self w') = Some (skipn k q) /\
  released (trace w') = released (trace w) ++ firstn k q /\
  (RATELIMIT_RESET headers <> None ->
   DATE headers <> None ->
   RATELIMIT_RESET_AFTER headers <> None ->
   count_drops (self w') = count_drops (self w) + a) /\
  (0 < lim -> cur = -1 \/ 0 < cur ->
   Z.of_nat k = Z.min (Z.max 0 (newly_freed cur lim)) (Z.of_nat (length q))) /\
  (size_of five_queued_unset = 0 /\
   pending (self five_queued_unset) = [0; 1; 2; 3; 4]%nat /\
   newly_freed 0 5 = 4 /\
   released (trace (final (exit (Some limit_five_one_used) 0 five_queued_unset)))
   = [0; 1; 2; 3; 4]%nat) /\
  (size_of five_queued_widened = -3 /\
   pending (self five_queued_widened) = [0; 1; 2; 3; 4]%nat /\
   newly_freed (-3) 2 = -1 /\
   released (trace (final (exit (Some limit_two) 5 five_queued_widened)))
   = [0; 1; 2; 3; 4]%nat).
Proof.
  intros Hu Hl Hr Hq. cbv zeta.
  pose proof (exit_limit_resized headers now w lim r q Hu Hl Hr Hq) as He.
  cbv zeta in He. fold (size_of w) in He.
  set (w1 := mkWorld _ _ _) in He.
  assert (Hp : pending (self w1) = q).
  { unfold w1, pending. destruct w as [[p lid dr act qu wk] futs tr].
    cbn in *. now rewrite Hq. }
  set (k := if lim >? size_of w then capped _ w1 else O) in He.
  assert (Hk : (if lim >? size_of w
                then Z.to_nat (Z.min (lim - (if size_of w =? -1 then 1
                                             else size_of w))
                                     (Z.of_nat (length q)))
                else O) = k).
  { unfold k, capped. now rewrite Hp. }
  rewrite Hk.
  split; [rewrite exit_size; unfold size_after_exit;
          apply Z.eqb_neq in Hu; now rewrite Hu, Hl|].
  rewrite He.
  destruct (after_resize_frame headers now
              (if (lim >? size_of w) && (size_of w =? -1) then lim - r else 1)
              (release k w1)) as (F1 & F2 & F3).
  destruct (release_frame k w1) as (_ & G2 & G3 & G4 & G5 & _).
  cbv zeta in *. rewrite Hp in *.
  split; [rewrite F2, G2; destruct w as [[p lid dr act qu wk] futs tr];
          reflexivity|].
  split; [now rewrite F1, G4|].
  split; [rewrite F3, G5; destruct w as [[p lid dr act qu wk] futs tr];
          reflexivity|].
  split.
  { intros H1 H2 H3.
    destruct (RATELIMIT_RESET headers) as [reset|] eqn:E1; [|congruence].
    destruct (DATE headers) as [date|] eqn:E2; [|congruence].
    destruct (RATELIMIT_RESET_AFTER headers) as [after|] eqn:E3; [|congruence].
    unfold exit_delay, bind at 1 2 3 4, ret. rewrite E1, E2, E3. cbn [item].
    unfold bind, ret. rewrite exit_schedule_eq. cbn [final].
    match goal with |- context [record_world ?d ?a ?w0] =>
      destruct (record_world_frame d a w0) as (_ & _ & _ & R4)
    end.
    rewrite !count_drops_total, R4, G3. unfold ledger_total.
    rewrite LedgerFacts.total_insert.
    destruct w as [[p lid dr act qu wk] futs tr]. reflexivity. }
  split.
  { intros Hlim Hcur. rewrite <- Hk. unfold newly_freed, effective_size.
    split_ifs; to_arith; lia. }
  split; repeat split.
Qed.

(** C3, the example: limit 5 and remaining 5 on a handler with size [-1] and
    one queued waiter release that waiter, and only it. *)
Lemma exit_with_limit_witness :
  size_of (final (exit (Some limit_five) 0 one_queued)) = 5 /\
  active (self (final (exit (Some limit_five) 0 one_queued))) = 1 - 1 /\
  queue (self (final (exit (Some limit_five) 0 one_queued))) = Some [] /\
  released (trace (final (exit (Some limit_five) 0 one_queued))) = [] ++ [0%nat].
Proof.
  destruct (exit_with_limit limit_five 0 one_queued 5 5 [0%nat])
    as (H1 & H2 & H3 & H4 & _);
    [vm_compute; discriminate | reflexivity | reflexivity | reflexivity |].
  repeat split; assumption.
Defined.

(** *** exit without headers *)

Lemma chain_advance (dr : option RatelimitUnit) :
  chain (advance dr) = tl (chain dr).
Proof. destruct dr as [[d a [n|]]|]; reflexivity. Qed.

Lemma wakeup_world_frame (w : World) :
  let w' := wakeup_world w in
  let k :=
    Z.to_nat (Z.min (Z.abs (size_of w) - active (self w)
                     - ledger_total (tl (chain (drops (self w)))))
                    (Z.of_nat (length (pending (self w))))) in
  size_of w' = size_of w /\
  active (self w') = active (self w) /\
  chain (drops (self w')) = tl (chain (drops (self w))) /\
  queue (self w') = Some (skipn k (pending (self w))) /\
  released (trace w') = released (trace w) ++ firstn k (pending (self w)) /\
  cancelled (trace w') = cancelled (trace w).
Proof.
  unfold wakeup_world. cbv zeta.
  match goal with |- context [release ?k ?w1] =>
    destruct (release_frame k w1) as (G1 & G2 & G3 & G4 & G5 & G6);
    set (w1' := w1) in *
  end.
  cbv zeta in *.
  assert (Hp : pending (self w1') = pending (self w)) by reflexivity.
  assert (Hc : count_drops (self w1') =
               ledger_total (tl (chain (drops (self w))))).
  { rewrite count_drops_total. unfold w1'. cbn [self set_wakeupper set_drops drops].
    now rewrite chain_advance. }
  unfold capped in *. rewrite Hc, Hp in *.
  rewrite G1, G2, G3, G4, G5, G6. unfold w1', size_of.
  cbn [self set_wakeupper set_drops drops parent active trace].
  rewrite chain_advance, released_app, cancelled_app.
  repeat split.
  - destruct (advance (drops (self w))); cbn; now rewrite app_nil_r.
  - destruct (advance (drops (self w))); cbn; now rewrite app_nil_r.
Qed.




(** *** exit with headers that carry no limit *)






(** *** enter *)

Lemma enter_sized_eq (s : Z) (w : World) :
  enter_sized s w =
    if (s - active (self w) <=? 0)
       || (s - active (self w) - count_drops (self w) <=? 0)
    then Ok (Awaiting (futures w)) (queued_world w)
    else Ok Returned (entered_world w).
Proof.
  destruct w as [[p lid dr act q wk] futs tr].
  unfold enter_sized, queued_world, entered_world, pending.
  destruct q as [q|]; cbn; split_ifs; cbn; split_ifs;
    try reflexivity; exfalso; unfold_slots; to_arith; lia.
Qed.

Lemma enter_eq (w : World) :
  size (parent (self w)) <> UNLIMITED_SIZE_VALUE ->
  enter w = enter_sized (effective_size (size (parent (self w)))) w.
Proof.
  intros Hu. unfold enter, bind, read, gets, effective_size.
  destruct (size (parent (self w)) <? 1) eqn:E1.
  - destruct (size (parent (self w)) =? UNLIMITED_SIZE_VALUE) eqn:E2.
    + apply Z.eqb_eq in E2. contradiction.
    + destruct (size (parent (self w)) =? 0); [reflexivity|].
      apply Z.ltb_lt in E1. f_equal. lia.
  - apply Z.ltb_ge in E1.
    destruct (size (parent (self w)) =? 0) eqn:E3; [apply Z.eqb_eq in E3; lia|].
    f_equal. lia.
Qed.

Lemma suspends_queued (w : World) :
  suspends (Ok (Awaiting (futures w)) (queued_world w)).
Proof.
  exists (futures w), (queued_world w). split; [reflexivity|].
  cbn. apply in_or_app. right. now left.
Qed.

Lemma not_suspends_returned (w : World) : ~ suspends (Ok Returned w).
Proof. intros (f & w' & H & _). discriminate. Qed.

(** C1, as amended: with an unlimited parent [enter] returns at once and
    changes nothing. Otherwise, with the effective size ([0] as [1], a
    negative size as its absolute value), the call is suspended on a future
    appended to the queue if and only if [size - active <= 0] or
    [size - active - count_drops() <= 0], which is "the remaining capacity is
    not positive" whenever [count_drops()] is not negative, and whether or
    not waiters are queued already; a call that is not suspended adds one to
    [active] and returns. *)
Theorem enter_admission (w : World) :
  let h := self w in
  let eff := effective_size (size (parent h)) in
  (size (parent h) = UNLIMITED_SIZE_VALUE -> enter w = Ok Returned w) /\
  (size (parent h) <> UNLIMITED_SIZE_VALUE ->
     (suspends (enter w) <->
        eff - active h <= 0 \/ eff - active h - count_drops h <= 0) /\
     (0 <= count_drops h -> (suspends (enter w) <-> remaining h <= 0)) /\
     (suspends (enter w) ->
        enter w = Ok (Awaiting (futures w)) (queued_world w)) /\
     (~ suspends (enter w) -> enter w = Ok Returned (entered_world w))).
Proof.
  cbv zeta. split.
  - intros Hu. unfold enter, bind, read, gets. rewrite Hu. reflexivity.
  - intros Hu. rewrite (enter_eq w Hu), enter_sized_eq. unfold remaining.
    set (eff := effective_size (size (parent (self w)))).
    destruct (eff - active (self w) <=? 0) eqn:E1;
      destruct (eff - active (self w) - count_drops (self w) <=? 0) eqn:E2;
      cbn [orb];
      try apply Z.leb_le in E1; try apply Z.leb_gt in E1;
      try apply Z.leb_le in E2; try apply Z.leb_gt in E2;
      pose proof (suspends_queued w) as Hq;
      pose proof (not_suspends_returned (entered_world w)) as Hr;
      repeat split; intros; try tauto; try lia.
Qed.

Lemma enter_admission_witness :
  suspends (enter one_waiter_left) <->
    1 - 0 <= 0 \/ 1 - 0 - 0 <= 0.
Proof.
  apply (proj2 (enter_admission one_waiter_left)).
  vm_compute. discriminate.
Defined.

(** C1 as the specification states it fails: a fourth caller is admitted
    although a waiter is queued. *)
Lemma enter_overtakes_queue :
  ~ (forall w : World,
       size (parent (self w)) <> UNLIMITED_SIZE_VALUE ->
       (suspends (enter w) <->
          remaining (self w) <= 0 \/ pending (self w) <> [])).
Proof.
  intros H.
  assert (Hs : suspends (enter one_waiter_left)).
  { apply H; [vm_compute; discriminate|]. right. vm_compute. discriminate. }
  destruct Hs as (f & w' & Hs & _). vm_compute in Hs. discriminate.
Qed.

(** *** The size over several calls *)

(** C8, as amended: the size of the descriptor is idempotent under identical
    headers when these carry the explicit limit (the size is that limit
    after the first [exit] and after the second), when there are no headers,
    and when the size is no optimistic estimate between the cap [-50] and
    zero: the second [exit] leaves the size the first one left. *)
Theorem exit_size_idempotent (headers : option Headers) (now1 now2 : Q)
    (w : World) :
  settles headers (size_of w) ->
  let w1 := final (exit headers now1 w) in
  let w2 := final (exit headers now2 w1) in
  size_of w2 = size_of w1 /\
  (forall h lim, headers = Some h -> RATELIMIT_LIMIT h = Some lim ->
     size_of w <> UNLIMITED_SIZE_VALUE -> size_of w1 = lim).
Proof.
  intros Hs. cbv zeta. rewrite !exit_size. split.
  - unfold size_after_exit, settles in *.
    destruct (size_of w =? UNLIMITED_SIZE_VALUE) eqn:E1.
    + now rewrite E1.
    + destruct headers as [h|].
      * destruct (RATELIMIT_LIMIT h) as [lim|].
        -- destruct (lim =? UNLIMITED_SIZE_VALUE) eqn:E2; [|reflexivity].
           now apply Z.eqb_eq in E2.
        -- assert (HB : (size_of w <? 0) &&
                         (size_of w >? MAXIMAL_UNLIMITED_PARARELLITY) = false).
           { apply andb_false_iff. rewrite Z.gtb_ltb.
             destruct Hs; [left; apply Z.ltb_ge | right; apply Z.ltb_ge];
               assumption. }
           rewrite HB. now rewrite E1, HB.
      * now rewrite E1.
  - intros h lim -> Hl Hu. unfold size_after_exit.
    apply Z.eqb_neq in Hu. now rewrite Hu, Hl.
Qed.

Lemma exit_size_idempotent_witness :
  size_of (final (exit (Some limit_five) 3
                    (final (exit (Some limit_five) 0 one_queued))))
  = size_of (final (exit (Some limit_five) 0 one_queued)).
Proof.
  apply (exit_size_idempotent (Some limit_five) 0 3 one_queued). exact I.
Defined.

(** C8 as the specification states it fails: headers without a limit widen
    an optimistic size at each [exit], from [-1] to [-2] and then to [-3]. *)
Lemma exit_size_widens_twice :
  ~ (forall (w : World) (headers : option Headers) (now : Q),
       size_of (final (exit headers now (final (exit headers now w))))
       = size_of (final (exit headers now w))).
Proof.
  intros H. specialize (H one_queued (Some no_limit) 0%Q).
  vm_compute in H. discriminate.
Qed.

Lemma call_size (c : Call) (w : World) :
  lacks_limit c ->
  size_of (final (call c w)) = size_of w \/
  (MAXIMAL_UNLIMITED_PARARELLITY < size_of w < 0 /\
   size_of (final (call c w)) = size_of w - 1).
Proof.
  intros Hc. destruct c as [| |headers now|]; cbn [call].
  - left. assert (K : keeps_size (enter ;;; ret tt)).
    { apply keeps_bind; [apply keeps_enter | intros; apply keeps_ret]. }
    apply K.
  - left. apply keeps_enter_resumed.
  - rewrite exit_size. unfold size_after_exit.
    destruct (size_of w =? UNLIMITED_SIZE_VALUE); [now left|].
    destruct headers as [h|]; [|now left].
    cbn in Hc. rewrite Hc.
    destruct (size_of w <? 0) eqn:E1; [|now left].
    destruct (size_of w >? MAXIMAL_UNLIMITED_PARARELLITY) eqn:E2; [|now left].
    right. to_arith. split; [lia | reflexivity].
  - left. apply keeps_wakeup.
Qed.

Lemma calls_step (c : Call) (cs : list Call) (w : World) :
  final (calls (c :: cs) w) =
    match call c w with
    | Ok _ w1 => final (calls cs w1)
    | Raised _ w1 => w1
    end.
Proof. cbn [calls]. unfold bind. now destruct (call c w). Qed.

Lemma calls_size (cs : list Call) :
  forall w : World,
    Forall lacks_limit cs ->
    MAXIMAL_UNLIMITED_PARARELLITY <= size_of w ->
    MAXIMAL_UNLIMITED_PARARELLITY <= size_of (final (calls cs w)) <= size_of w
    /\ (0 <= size_of w -> size_of (final (calls cs w)) = size_of w).
Proof.
  induction cs as [|c cs IH]; intros w Hcs Hw.
  - cbn. lia.
  - inversion Hcs as [|c' cs' Hc Hcs']; subst.
    rewrite calls_step.
    pose proof (call_size c w Hc) as Hstep.
    destruct (call c w) as [[] w1|e w1]; cbn [final] in Hstep.
    + assert (Hw1 : MAXIMAL_UNLIMITED_PARARELLITY <= size_of w1) by lia.
      specialize (IH w1 Hcs' Hw1). lia.
    + lia.
Qed.

(** C9: over any sequence of calls whose [exit]s get no explicit limit, a
    size that is not below [-50] never goes below [-50], and never rises; at
    [-50] it stays [-50]; so the magnitude of an optimistic estimate is at
    most 50. This holds for every handler of a group as [RatelimitGroup]
    makes it, whose size is [-1] or [0]. *)
Theorem widening_bounded (cs : list Call) (w : World) :
  Forall lacks_limit cs ->
  MAXIMAL_UNLIMITED_PARARELLITY <= size_of w ->
  let w' := final (calls cs w) in
  MAXIMAL_UNLIMITED_PARARELLITY <= size_of w' <= size_of w /\
  (size_of w = MAXIMAL_UNLIMITED_PARARELLITY ->
     size_of w' = MAXIMAL_UNLIMITED_PARARELLITY) /\
  (size_of w < 0 -> Z.abs (size_of w') <= 50) /\
  (forall (lm : Limiter) (optimistic : bool) (next_id next_id' lid : Z)
          (group : RatelimitGroup),
     RatelimitGroup_new lm optimistic next_id = Ok group next_id' ->
     w = fresh group lid ->
     -50 <= size_of w' <= 0).
Proof.
  intros Hcs Hw. cbv zeta.
  destruct (calls_size cs w Hcs Hw) as [Hb Hp].
  unfold MAXIMAL_UNLIMITED_PARARELLITY in *.
  split; [exact Hb|]. split; [lia|]. split; [lia|].
  intros lm o nid nid' lid group Hg ->.
  unfold RatelimitGroup_new in Hg. injection Hg as <- _.
  assert (size_of (fresh (mkGroup nid lm (if o then -1 else 0)) lid) <= 0).
  { destruct o, lm; cbn; lia. }
  lia.
Qed.

Lemma widening_bounded_witness :
  MAXIMAL_UNLIMITED_PARARELLITY
  <= size_of (final (calls (rounds 60 0) (fresh optimistic_group 7)))
  <= size_of (fresh optimistic_group 7).
Proof.
  apply (widening_bounded (rounds 60 0) (fresh optimistic_group 7)).
  - repeat constructor.
  - vm_compute. discriminate.
Defined.

(** *** wakeup on an unset size *)

Lemma count_from_nonneg (u : RatelimitUnit) (r : Z) :
  Forall (fun p => 0 <= snd p) (to_list u) -> 0 <= r -> 0 <= count_from u r.
Proof.
  revert r. induction u as [d a | d a n IH] using unit_chain_ind;
    intros r Hf Hr; cbn in *.
  - inversion Hf; subst. cbn in *. lia.
  - inversion Hf; subst. cbn in *. apply IH; [assumption | lia].
Qed.

(** C10: while the size of the descriptor is [0], [wakeup()] releases no
    waiter, whatever the queue holds: the room it computes is
    [0 - active - count_drops()], never positive for an [active] and
    allocations that are not negative. It is so even with [active = 0] and
    an empty ledger, where [enter()], which counts the size [0] as [1],
    admits a caller. *)
Theorem wakeup_unset_size (w : World) :
  size_of w = 0 ->
  0 <= active (self w) ->
  Forall (fun p => 0 <= snd p) (chain (drops (self w))) ->
  let w' := final (wakeup w) in
  queue (self w') = queue (self w) /\
  released (trace w') = released (trace w) /\
  (active (self w) = 0 -> drops (self w) = None ->
     enter w = Ok Returned (entered_world w)).
Proof.
  intros Hs Ha Hd. cbv zeta.
  assert (Hfree :
    queue (self (final (wakeup w))) = queue (self w) /\
    released (trace (final (wakeup w))) = released (trace w)).
  { destruct (queue (self w)) as [q|] eqn:Hq.
    - rewrite (wakeup_eq w q Hq). cbn [final].
      destruct (wakeup_world_frame w) as (_ & _ & _ & F4 & F5 & _).
      cbv zeta in *.
      assert (Hp : pending (self w) = q) by (unfold pending; now rewrite Hq).
      rewrite Hp in *.
      assert (Hk : Z.to_nat (Z.min (Z.abs (size_of w) - active (self w)
                     - ledger_total (tl (chain (drops (self w)))))
                    (Z.of_nat (length q))) = O).
      { assert (0 <= ledger_total (tl (chain (drops (self w))))).
        { destruct (chain (drops (self w))) as [|x l]; [cbn; lia|].
          inversion Hd as [|x' l' _ Hl]; subst. cbn [tl].
          clear -Hl. unfold ledger_total.
          induction Hl as [|y l Hy Hl IH]; cbn; lia. }
        rewrite Hs. cbn [Z.abs]. lia. }
      rewrite Hk in *. cbn [firstn skipn] in *.
      now rewrite F4, F5, app_nil_r.
    - unfold wakeup. rewrite (bind_ok _ _ _ _ _ (wakeup_advance_eq w)).
      cbv zeta. rewrite wakeup_release_none by exact Hq.
      cbn [final self trace]. rewrite released_app.
      split; [exact Hq|].
      destruct (advance (drops (self w))); cbn; now rewrite app_nil_r. }
  destruct Hfree as [H1 H2]. repeat split; try assumption.
  intros Ha0 Hd0.
  rewrite enter_eq by (unfold size_of in Hs; rewrite Hs; discriminate).
  rewrite enter_sized_eq. unfold size_of in Hs. rewrite Hs, Ha0.
  unfold count_drops. rewrite Hd0. reflexivity.
Qed.

(** The waiter of a handler whose size is still [0] stays queued, with
    nothing active and an empty ledger. *)
Lemma wakeup_unset_size_witness :
  queue (self (final (wakeup unset_with_waiter))) = Some [0%nat].
Proof.
  apply (wakeup_unset_size unset_with_waiter);
    [reflexivity | vm_compute; discriminate | constructor].
Defined.

End HandlerFacts.

(** ** The proxy *)

Module ProxyFacts.
Import Handler Proxy.

(** C6 at its failing inputs: for a group limited by guild, a guild itself
    gives its id, but a channel, message, role or webhook that has a guild
    makes [RatelimitProxy.__new__] read [group.id], an attribute that
    [RatelimitGroup] does not have, and the construction ends in an
    [AttributeError]; without a guild, and for any other object, it ends in
    a [ValueError]. *)
Theorem guild_scope_attribute_error
    (gid sz : Z) (keep_alive : bool) (m : Memory) (id other g : Z) :
  let group := mkGroup gid LIMITER_GUILD sz in
  resolve_limiter_id group (Guild id) m = Ok id m /\
  RatelimitProxy_new group (Channel id (Some g)) keep_alive m
    = Raised AttributeError m /\
  RatelimitProxy_new group (Message id other (Some g)) keep_alive m
    = Raised AttributeError m /\
  RatelimitProxy_new group (Role id (Some g)) keep_alive m
    = Raised AttributeError m /\
  RatelimitProxy_new group (Webhook id (Some g)) keep_alive m
    = Raised AttributeError m /\
  RatelimitProxy_new group (WebhookRepr id (Some g)) keep_alive m
    = Raised AttributeError m /\
  RatelimitProxy_new group (Channel id None) keep_alive m
    = Raised ValueError m /\
  RatelimitProxy_new group OtherObject keep_alive m = Raised ValueError m /\
  RatelimitProxy_new guild_group (Channel 7 (Some 42)) false empty_memory
    = Raised AttributeError empty_memory.
Proof. cbv zeta. repeat split. Qed.

(** A guild given directly does resolve: the proxy's [limiter_id] is the id
    of the guild. *)
Lemma guild_scope_direct (gid sz id : Z) (m : Memory) :
  exists p m',
    RatelimitProxy_new (mkGroup gid LIMITER_GUILD sz) (Guild id) false m
      = Ok p m' /\
    (deref m (next_addr m) = None -> proxy_limiter_id p m' = Some id).
Proof.
  eexists. eexists. split; [reflexivity|].
  intros Hfresh. unfold proxy_limiter_id, deref in *. cbn.
  induction (heap m) as [|[b h] l IH]; cbn in *.
  - now rewrite Nat.eqb_refl.
  - destruct (Nat.eqb (next_addr m) b); [discriminate | now apply IH].
Qed.

(** C7 at its failing inputs: with no handler resolved the properties give
    their defaults, and with a handler whose ledger is empty
    [next_reset_at] and [next_reset_after] give 0.0; but when the ledger has
    a cooldown node both subscript it, which a [RatelimitUnit] does not
    allow, and end in a [TypeError]. *)
Theorem next_reset_type_error (now : Q) (s : ProxyWorld) :
  match handler s with
  | Ok None s' =>
      used_count s = Ok 0 s' /\ waiting_count s = Ok 0 s' /\
      next_reset_at s = Ok 0%Q s' /\ next_reset_after now s = Ok 0%Q s'
  | Ok (Some h) s' =>
      used_count s = Ok (active h + count_drops h) s' /\
      match drops h with
      | None =>
          next_reset_at s = Ok 0%Q s' /\ next_reset_after now s = Ok 0%Q s'
      | Some _ =>
          next_reset_at s = Raised TypeError s' /\
          next_reset_after now s = Raised TypeError s'
      end
  | Raised _ _ => True
  end /\
  handler cooling_proxy = Ok (Some cooling_handler) cooling_proxy /\
  next_reset_at cooling_proxy = Raised TypeError cooling_proxy /\
  next_reset_after now cooling_proxy = Raised TypeError cooling_proxy.
Proof.
  split; [|repeat split].
  unfold used_count, waiting_count, next_reset_at, next_reset_after.
  destruct (handler s) as [[h|] s'|e s'] eqn:E; [| |exact I];
    rewrite !(bind_ok _ _ _ _ _ E).
  - split; [reflexivity|].
    destruct (drops h); split; reflexivity.
  - repeat split.
Qed.

End ProxyFacts.

(** ** More on the ledger *)

Module LedgerMoreFacts.
Import Ledger LedgerFacts.

(** X1: the count of the ledger, as the loop of [count_drops] adds it up
    from any running total, is that total plus the sum of the allocations
    of the chain, and [update_with] raises it by exactly the allocations it
    is given, merged or not. *)
Theorem update_with_count (u : RatelimitUnit) (d : Q) (a r : Z) :
  count_from u r = r + fold_right Z.add 0 (map snd (to_list u)) /\
  count_from (update_with u d a) 0 = count_from u 0 + a.
Proof.
  split.
  - rewrite count_from_shift, count_from_total. reflexivity.
  - rewrite !count_from_total, update_with_refines. apply total_insert.
Qed.

End LedgerMoreFacts.

(** ** More on the handler *)

Module HandlerMoreFacts.
Import Handler HandlerSpec HandlerMore HandlerFacts.

(** *** Slots a computation leaves alone *)

Section Slot.

Context {B : Type}.
Variable f : RatelimitHandler -> B.

Lemma slot_ret {A} (a : A) : keeps_slot f (ret a).
Proof. intros w. reflexivity. Qed.

Lemma slot_raise {A} (e : Exn) : keeps_slot f (@raise World A e).
Proof. intros w. reflexivity. Qed.

Lemma slot_bind {A C} (m : M World A) (k : A -> M World C) :
  keeps_slot f m -> (forall a, keeps_slot f (k a)) -> keeps_slot f (bind m k).
Proof.
  intros Hm Hk w. unfold bind. specialize (Hm w).
  destruct (m w) as [a s'|e s']; cbn in *.
  - now rewrite Hk.
  - exact Hm.
Qed.

Lemma slot_read {A} (g : RatelimitHandler -> A) : keeps_slot f (read g).
Proof. intros w. reflexivity. Qed.

Lemma slot_emit (e : LoopEvent) : keeps_slot f (emit e).
Proof. intros w. reflexivity. Qed.

Lemma slot_new_future : keeps_slot f new_future.
Proof. intros w. reflexivity. Qed.

Lemma slot_item {A} (v : option A) : keeps_slot f (item v).
Proof. destruct v; intros w; reflexivity. Qed.

Lemma slot_assign (g : RatelimitHandler -> RatelimitHandler) :
  (forall h, f (g h) = f h) -> keeps_slot f (assign g).
Proof. intros Hg w. cbn. apply Hg. Qed.

End Slot.

Create HintDb slots.

#[local] Hint Resolve slot_read slot_emit slot_new_future slot_item : slots.

Ltac slot_step :=
  match goal with
  | |- keeps_slot _ (bind _ _) => apply slot_bind; [|intros]
  | |- keeps_slot _ (ret _) => apply slot_ret
  | |- keeps_slot _ (raise _) => apply slot_raise
  | |- keeps_slot _ (assign _) => apply slot_assign; intros; reflexivity
  | |- keeps_slot _ (if ?b then _ else _) => destruct b
  | |- keeps_slot _ (match ?x with _ => _ end) => destruct x
  | |- keeps_slot _ (let _ := _ in _) => cbv zeta
  | |- keeps_slot _ _ => solve [auto with slots nocore]
  end.

Ltac slots := repeat slot_step.

(** Releasing waiters touches the queue only. *)
Lemma slot_free_waiters {B} (f : RatelimitHandler -> B) (c : Z) :
  (forall v h, f (set_queue v h) = f h) -> keeps_slot f (free_waiters c).
Proof.
  intros Hf. unfold free_waiters.
  induction (Z.to_nat c) as [|n IH]; cbn [free_loop].
  - slots.
  - unfold queue_popleft. apply slot_bind; [|intros; slots].
    apply slot_bind; [slots|]. intros q. destruct q as [[|x q]|]; [slots|..|slots].
    apply slot_bind; [|intros; slots]. apply slot_assign. intros h. apply Hf.
Qed.

Lemma active_free_waiters (c : Z) : keeps_slot active (free_waiters c).
Proof. apply slot_free_waiters. reflexivity. Qed.

#[local] Hint Resolve active_free_waiters : slots.

Lemma active_wakeup : keeps_slot active wakeup.
Proof.
  unfold wakeup, wakeup_advance, wakeup_release, queue_len, call_at. slots.
Qed.

#[local] Hint Resolve active_wakeup : slots.

Lemma active_exit_wakeup : keeps_slot active exit_wakeup.
Proof. unfold exit_wakeup. slots. Qed.

Lemma active_exit_record (headers : Headers) (now : Q) (c s : Z) (o : bool) :
  keeps_slot active (exit_record headers now c s o).
Proof.
  unfold exit_record, exit_resize, exit_delay, exit_schedule, queue_len,
    call_at.
  slots.
Qed.

Lemma exit_active (headers : option Headers) (now : Q) (w : World) :
  size_of w <> UNLIMITED_SIZE_VALUE ->
  active (self (final (exit headers now w))) = active (self w) - 1.
Proof.
  intros Hu. unfold exit.
  unfold bind at 1, read at 1, gets. fold (size_of w).
  apply Z.eqb_neq in Hu. rewrite Hu.
  unfold bind at 1, read at 1, gets. unfold bind at 1, assign at 1, modify.
  set (w1 := with_self _ w).
  change (active (self w) - 1) with (active (self w1)).
  destruct headers as [headers|]; [|apply active_exit_wakeup].
  destruct (RATELIMIT_LIMIT headers) as [lim|]; [apply active_exit_record|].
  destruct (size_of w <? 0); [apply active_exit_record|apply active_exit_wakeup].
Qed.

(** X4: on a handler that is not unlimited [exit] takes exactly one from
    [active], whatever the headers and also when it raises; on an unlimited
    one it changes nothing; so after an [enter] that returned at once and the
    [exit] that pairs with it, [active] is what it was. *)
Theorem exit_leaves_once (headers : option Headers) (now : Q) (w : World) :
  (size_of w = UNLIMITED_SIZE_VALUE -> exit headers now w = Ok tt w) /\
  (size_of w <> UNLIMITED_SIZE_VALUE ->
     active (self (final (exit headers now w))) = active (self w) - 1) /\
  (forall w1, enter w = Ok Returned w1 ->
     active (self (final (exit headers now w1))) = active (self w)).
Proof.
  split; [|split].
  - intros Hu. unfold exit, bind, read, gets. fold (size_of w).
    now rewrite Hu.
  - apply exit_active.
  - intros w1 He.
    destruct (Z.eq_dec (size_of w) UNLIMITED_SIZE_VALUE) as [Hu|Hu].
    + assert (E : enter w = Ok Returned w).
      { unfold enter, bind, read, gets. fold (size_of w). now rewrite Hu. }
      rewrite E in He. injection He as <-.
      unfold exit, bind, read, gets. fold (size_of w). now rewrite Hu.
    + rewrite enter_eq, enter_sized_eq in He by exact Hu.
      destruct (_ || _); [discriminate|]. injection He as <-.
      rewrite exit_active by exact Hu. cbn. lia.
Qed.

Lemma exit_leaves_once_witness :
  active (self (final (exit (Some limit_five) 0 one_queued)))
  = active (self one_queued) - 1.
Proof.
  apply (exit_leaves_once (Some limit_five) 0 one_queued).
  vm_compute. discriminate.
Defined.

(** *** The order of release *)

Lemma firstn_plus {A} (k1 k2 : nat) (l : list A) :
  firstn (k2 + k1) l = firstn k1 l ++ firstn k2 (skipn k1 l).
Proof.
  revert l. induction k1 as [|k1 IH]; intros l.
  - now rewrite Nat.add_0_r.
  - rewrite Nat.add_succ_r. destruct l as [|x l]; cbn.
    + now rewrite firstn_nil.
    + now rewrite IH.
Qed.

Lemma serves_ret {A} (a : A) : serves (ret a).
Proof.
  intros w. exists O. cbn. now rewrite app_nil_r.
Qed.

Lemma serves_raise {A} (e : Exn) : serves (@raise World A e).
Proof.
  intros w. exists O. cbn. now rewrite app_nil_r.
Qed.

Lemma serves_bind {A C} (m : M World A) (k : A -> M World C) :
  serves m -> (forall a, serves (k a)) -> serves (bind m k).
Proof.
  intros Hm Hk w. unfold bind. destruct (Hm w) as (k1 & H1 & H2 & H3).
  destruct (m w) as [a s'|e s']; cbn [final] in *.
  - destruct (Hk a s') as (k2 & G1 & G2 & G3). exists (k2 + k1)%nat.
    rewrite G1, G2, G3, H1, H2, H3, firstn_plus, skipn_skipn, app_assoc.
    repeat split.
  - exists k1. repeat split; assumption.
Qed.

Lemma serves_read {A} (g : RatelimitHandler -> A) : serves (read g).
Proof. intros w. exists O. cbn. now rewrite app_nil_r. Qed.

Lemma serves_item {A} (v : option A) : serves (item v).
Proof. destruct v; [apply serves_ret | apply serves_raise]. Qed.

Lemma serves_assign (g : RatelimitHandler -> RatelimitHandler) :
  (forall h, pending (g h) = pending h) -> serves (assign g).
Proof.
  intros Hg w. exists O. cbn. rewrite app_nil_r, Hg. repeat split.
Qed.

Lemma serves_call_at (t : Q) : serves (call_at t).
Proof.
  intros w. exists O. cbn. rewrite released_app, !app_nil_r. repeat split.
Qed.

Lemma serves_cancel (h : Handle) : serves (emit (Cancel h)).
Proof.
  intros w. exists O. cbn. rewrite released_app, !app_nil_r. repeat split.
Qed.

Lemma serves_free_loop (n : nat) : serves (free_loop n).
Proof.
  induction n as [|n IH]; intros [[p lid dr act qu wk] futs tr].
  - exists O. cbn. now rewrite app_nil_r.
  - destruct qu as [[|x q]|].
    + exists O. cbn. now rewrite app_nil_r.
    + set (w2 := mkWorld (mkHandler p lid dr act (Some q) wk) futs
                         (tr ++ [SetResult x])).
      destruct (IH w2) as (k & H1 & H2 & H3). exists (S k).
      change (free_loop (S n)
                (mkWorld (mkHandler p lid dr act (Some (x :: q)) wk) futs tr))
        with (free_loop n w2).
      rewrite H1, H2, H3. unfold w2. cbn. rewrite released_app. cbn.
      rewrite <- app_assoc. repeat split.
    + exists O. cbn. now rewrite app_nil_r.
Qed.

Lemma serves_free_waiters (c : Z) : serves (free_waiters c).
Proof. apply serves_free_loop. Qed.

Create HintDb serves.

#[local] Hint Resolve serves_read serves_item serves_call_at serves_cancel
  serves_free_waiters : serves.

Ltac serve_step :=
  match goal with
  | |- serves (bind _ _) => apply serves_bind; [|intros]
  | |- serves (ret _) => apply serves_ret
  | |- serves (raise _) => apply serves_raise
  | |- serves (assign _) => apply serves_assign; intros; reflexivity
  | |- serves (if ?b then _ else _) => destruct b
  | |- serves (match ?x with _ => _ end) => destruct x
  | |- serves (let _ := _ in _) => cbv zeta
  | |- serves _ => solve [auto with serves nocore]
  end.

Ltac serving := repeat serve_step.

Lemma serves_wakeup : serves wakeup.
Proof. unfold wakeup, wakeup_advance, wakeup_release, queue_len. serving. Qed.

#[local] Hint Resolve serves_wakeup : serves.

Lemma serves_exit (headers : option Headers) (now : Q) :
  serves (exit headers now).
Proof.
  unfold exit, exit_wakeup, exit_record, exit_resize, exit_delay,
    exit_schedule, queue_len.
  serving.
Qed.

Lemma serves_order {A} (m : M World A) (w : World) :
  serves m -> in_arrival_order w -> in_arrival_order (final (m w)).
Proof.
  intros Hm Hw. destruct (Hm w) as (k & H1 & H2 & H3).
  unfold in_arrival_order in *.
  now rewrite H1, H2, H3, <- app_assoc, firstn_skipn.
Qed.

Lemma enter_order (w : World) :
  in_arrival_order w -> in_arrival_order (final (enter w)).
Proof.
  intros Hw.
  destruct (Z.eq_dec (size (parent (self w))) UNLIMITED_SIZE_VALUE) as [Hu|Hu].
  - assert (E : enter w = Ok Returned w).
    { unfold enter, bind, read, gets. now rewrite Hu. }
    now rewrite E.
  - rewrite enter_eq, enter_sized_eq by exact Hu.
    unfold in_arrival_order in *.
    destruct (_ || _); cbn [final].
    + unfold queued_world. cbn. rewrite app_assoc, Hw. symmetry.
      apply seq_S.
    + unfold entered_world. cbn. exact Hw.
Qed.

Lemma call_order (c : Call) (w : World) :
  in_arrival_order w -> in_arrival_order (final (call c w)).
Proof.
  intros Hw. destruct c as [| |headers now|]; cbn [call].
  - unfold bind. pose proof (enter_order w Hw) as He.
    destruct (enter w); exact He.
  - apply serves_order; [|exact Hw]. unfold enter_resumed. serving.
  - apply serves_order; [apply serves_exit | exact Hw].
  - apply serves_order; [apply serves_wakeup | exact Hw].
Qed.

Lemma calls_order (cs : list Call) :
  forall w, in_arrival_order w -> in_arrival_order (final (calls cs w)).
Proof.
  induction cs as [|c cs IH]; intros w Hw; [exact Hw|].
  rewrite calls_step. pose proof (call_order c w Hw) as Hc.
  destruct (call c w) as [[] w1|e w1]; cbn [final] in Hc; auto.
Qed.

Lemma firstn_of_seq (k n s : nat) :
  firstn k (seq s n) = seq s (Nat.min k n).
Proof.
  revert k s. induction n as [|n IH]; intros k s.
  - rewrite Nat.min_0_r. cbn. apply firstn_nil.
  - destruct k as [|k]; [reflexivity|]. cbn. now rewrite IH.
Qed.

Lemma prefix_of_seq (a b : list nat) (n : nat) :
  a ++ b = seq 0 n -> a = seq 0 (length a).
Proof.
  intros H.
  assert (E : firstn (length a) (a ++ b) = firstn (length a) (seq 0 n))
    by now rewrite H.
  rewrite firstn_app, Nat.sub_diag, firstn_all, firstn_O, app_nil_r in E.
  rewrite E at 1. rewrite firstn_of_seq. f_equal.
  assert (L : length (a ++ b) = length (seq 0 n)) by now rewrite H.
  rewrite length_app, length_seq in L. lia.
Qed.

(** X5: whatever calls of [enter], [exit] and [wakeup] a fresh handler gets,
    with whatever headers, the waiters are released in the order in which
    they queued: the futures released so far, followed by those still in the
    queue, are all the futures created, in the order of their creation. So
    none is released twice, none is lost and none is overtaken in the
    queue. *)
Theorem released_in_arrival_order (cs : list Call) (group : RatelimitGroup)
    (lid : Z) :
  let w := final (calls cs (fresh group lid)) in
  released (trace w) ++ pending (self w) = seq 0 (futures w) /\
  released (trace w) = seq 0 (length (released (trace w))) /\
  NoDup (released (trace w) ++ pending (self w)).
Proof.
  cbv zeta.
  assert (H : in_arrival_order (final (calls cs (fresh group lid)))).
  { apply calls_order. reflexivity. }
  unfold in_arrival_order in H. split; [exact H|]. split.
  - eapply prefix_of_seq. exact H.
  - rewrite H. apply seq_NoDup.
Qed.

(** *** The scheduled wakeup *)

Lemma walk_head (d : Q) (a : Z) (u : RatelimitUnit) :
  drop (walk d a u) = drop u.
Proof.
  destruct u as [ld la [n|]]; cbn; [|reflexivity].
  destruct (Qltb _ _); [reflexivity|]. destruct (Qltb _ _); reflexivity.
Qed.

Lemma update_with_head (u : RatelimitUnit) (d : Q) (a : Z) :
  drop (update_with u d a) =
    if Qltb (d + RATELIMIT_DROP_ROUND) (drop u) then d
    else if Qltb (drop u) (d - RATELIMIT_DROP_ROUND) then drop u
    else if Qltb d (drop u) then d else drop u.
Proof.
  unfold update_with.
  destruct (Qltb (d + RATELIMIT_DROP_ROUND) (drop u)); [reflexivity|].
  destruct (Qltb (drop u) (d - RATELIMIT_DROP_ROUND)); [apply walk_head|].
  reflexivity.
Qed.

Lemma record_world_scheduled (d : Q) (a : Z) (w : World) :
  scheduled_in_time (self w) -> scheduled_in_time (self (record_world d a w)).
Proof.
  pose proof LedgerFacts.round_pos as Hr.
  destruct w as [[p lid dr act qu wk] futs tr].
  unfold scheduled_in_time, record_world. cbn [self drops wakeupper].
  destruct dr as [u|], wk as [t|]; try contradiction; intros Hs.
  - destruct (Qltb d (when t)) eqn:E; cbn [self set_wakeupper set_drops drops
      wakeupper when]; rewrite update_with_head.
    + apply Qltb_lt in E.
      destruct (Qltb (d + RATELIMIT_DROP_ROUND) (drop u)) eqn:E1;
        [apply Qle_refl|].
      destruct (Qltb (drop u) (d - RATELIMIT_DROP_ROUND)) eqn:E2;
        [apply Qltb_lt in E2; lra|].
      destruct (Qltb d (drop u)) eqn:E3; [apply Qle_refl|].
      apply Qltb_ge in E3. lra.
    + apply Qltb_ge in E.
      destruct (Qltb (d + RATELIMIT_DROP_ROUND) (drop u)); [exact E|].
      destruct (Qltb (drop u) (d - RATELIMIT_DROP_ROUND)); [exact Hs|].
      destruct (Qltb d (drop u)); assumption.
  - cbn. apply Qle_refl.
Qed.

Lemma slot_scheduled {A} (m : M World A) (w : World) :
  keeps_slot ledger_and_timer m ->
  scheduled_in_time (self w) -> scheduled_in_time (self (final (m w))).
Proof.
  intros Hm Hw. specialize (Hm w). unfold ledger_and_timer in Hm.
  injection Hm as H1 H2. unfold scheduled_in_time in *. now rewrite H1, H2.
Qed.

Lemma timer_free_waiters (c : Z) : keeps_slot ledger_and_timer (free_waiters c).
Proof. apply slot_free_waiters. reflexivity. Qed.

#[local] Hint Resolve timer_free_waiters : slots.

Lemma wakeup_scheduled (w : World) :
  scheduled_in_time (self (final (wakeup w))).
Proof.
  unfold wakeup. rewrite (bind_ok _ _ _ _ _ (wakeup_advance_eq w)). cbv zeta.
  apply slot_scheduled.
  - unfold wakeup_release, queue_len. slots.
  - unfold scheduled_in_time. cbn.
    destruct (advance (drops (self w))); cbn; [apply Qle_refl | exact I].
Qed.

Lemma exit_wakeup_scheduled (w : World) :
  scheduled_in_time (self (final (exit_wakeup w))).
Proof.
  destruct w as [[p lid dr act qu wk] futs tr]. unfold exit_wakeup.
  destruct wk as [t|]; cbn -[wakeup]; apply wakeup_scheduled.
Qed.

Lemma exit_record_scheduled (headers : Headers) (now : Q) (c s : Z) (o : bool)
    (w : World) :
  scheduled_in_time (self w) ->
  scheduled_in_time (self (final (exit_record headers now c s o w))).
Proof.
  intros Hw. unfold exit_record. unfold bind at 1.
  assert (K1 : keeps_slot ledger_and_timer (exit_resize headers c s o)).
  { unfold exit_resize, queue_len. slots. }
  pose proof (slot_scheduled _ w K1 Hw) as H1.
  destruct (exit_resize headers c s o w) as [a w1|e w1]; cbn [final] in *;
    [|exact H1].
  unfold bind at 1.
  assert (K2 : keeps_slot ledger_and_timer (exit_delay headers o)).
  { unfold exit_delay. slots. }
  pose proof (slot_scheduled _ w1 K2 H1) as H2.
  destruct (exit_delay headers o w1) as [dl w2|e w2]; cbn [final] in *;
    [|exact H2].
  rewrite exit_schedule_eq. cbn [final]. now apply record_world_scheduled.
Qed.

Lemma exit_scheduled (headers : option Headers) (now : Q) (w : World) :
  scheduled_in_time (self w) ->
  scheduled_in_time (self (final (exit headers now w))).
Proof.
  intros Hw. unfold exit.
  unfold bind at 1, read at 1, gets.
  destruct (_ =? UNLIMITED_SIZE_VALUE); [exact Hw|].
  unfold bind at 1, read at 1, gets. unfold bind at 1, assign at 1, modify.
  set (w1 := with_self _ w).
  assert (Hw1 : scheduled_in_time (self w1)) by exact Hw.
  destruct headers as [headers|]; [|apply exit_wakeup_scheduled].
  destruct (RATELIMIT_LIMIT headers) as [lim|];
    [now apply exit_record_scheduled|].
  destruct (_ <? 0);
    [now apply exit_record_scheduled | apply exit_wakeup_scheduled].
Qed.

Lemma call_scheduled (c : Call) (w : World) :
  scheduled_in_time (self w) -> scheduled_in_time (self (final (call c w))).
Proof.
  intros Hw. destruct c as [| |headers now|]; cbn [call].
  - apply slot_scheduled; [|exact Hw].
    unfold enter, enter_sized, queue_append. slots.
  - apply slot_scheduled; [|exact Hw]. unfold enter_resumed. slots.
  - now apply exit_scheduled.
  - apply wakeup_scheduled.
Qed.

(** X6: whatever calls a fresh handler gets, a wakeup is scheduled exactly
    when its ledger has a cooldown node, and it is scheduled no later than
    the expiry of the first node: no cooldown is left without the timer
    that ends it. *)
Theorem wakeup_always_scheduled (cs : list Call) (group : RatelimitGroup)
    (lid : Z) :
  let h := self (final (calls cs (fresh group lid))) in
  match drops h, wakeupper h with
  | None, None => True
  | Some u, Some t => (when t <= drop u)%Q
  | _, _ => False
  end.
Proof.
  cbv zeta. change (scheduled_in_time (self (final (calls cs (fresh group lid))))).
  assert (H0 : scheduled_in_time (self (fresh group lid))) by exact I.
  revert H0. generalize (fresh group lid).
  induction cs as [|c cs IH]; intros w Hw; [exact Hw|].
  rewrite calls_step. pose proof (call_scheduled c w Hw) as Hc.
  destruct (call c w) as [[] w1|e w1]; cbn [final] in Hc; auto.
Qed.

(** *** Filling a handler *)

Lemma enters_fill_from (n : nat) :
  forall w : World,
    size_of w <> UNLIMITED_SIZE_VALUE ->
    drops (self w) = None ->
    active (self w) <= effective_size (size_of w) ->
    let w' := final (calls (repeat CallEnter n) w) in
    active (self w')
      = Z.min (active (self w) + Z.of_nat n) (effective_size (size_of w)) /\
    Z.of_nat (length (pending (self w')))
      = Z.of_nat (length (pending (self w))) + Z.of_nat n
        - (active (self w') - active (self w)) /\
    drops (self w') = None /\ size_of w' = size_of w.
Proof.
  induction n as [|n IH]; intros w Hu Hd Ha; cbv zeta.
  - cbn. repeat split; try lia; assumption.
  - cbn [repeat]. rewrite calls_step.
    assert (E : call CallEnter w =
                if effective_size (size_of w) - active (self w) <=? 0
                then Ok tt (queued_world w) else Ok tt (entered_world w)).
    { cbn [call]. unfold bind. rewrite enter_eq, enter_sized_eq by exact Hu.
      unfold count_drops. rewrite Hd. fold (size_of w).
      rewrite Z.sub_0_r, orb_diag.
      destruct (_ <=? 0); reflexivity. }
    rewrite E. clear E.
    set (eff := effective_size (size_of w)) in *.
    destruct (eff - active (self w) <=? 0) eqn:E1.
    + apply Z.leb_le in E1.
      destruct (IH (queued_world w)) as (H1 & H2 & H3 & H4);
        [exact Hu | exact Hd | exact Ha |].
      cbv zeta in *. rewrite H1, H2, H3, H4, H1.
      change (active (self (queued_world w))) with (active (self w)).
      change (size_of (queued_world w)) with (size_of w).
      fold eff.
      assert (L : length (pending (self (queued_world w)))
                  = S (length (pending (self w)))).
      { unfold queued_world. cbn. rewrite length_app. cbn. lia. }
      rewrite L. repeat split; lia.
    + apply Z.leb_gt in E1.
      destruct (IH (entered_world w)) as (H1 & H2 & H3 & H4);
        [exact Hu | exact Hd | change (active (self w) + 1 <= eff); lia |].
      cbv zeta in *. rewrite H1, H2, H3, H4, H1.
      change (active (self (entered_world w))) with (active (self w) + 1).
      change (size_of (entered_world w)) with (size_of w).
      change (pending (self (entered_world w))) with (pending (self w)).
      fold eff. repeat split; lia.
Qed.

(** X7: of [n] callers that enter a fresh handler that is not unlimited, one
    after the other, the first [size] are admitted at once ([size] being the
    effective size: [1] for [0], the absolute value for a negative size) and
    every later one is queued. *)
Theorem enters_fill (n : nat) (group : RatelimitGroup) (lid : Z) :
  size group <> UNLIMITED_SIZE_VALUE ->
  let w := final (calls (repeat CallEnter n) (fresh group lid)) in
  active (self w) = Z.min (Z.of_nat n) (effective_size (size group)) /\
  Z.of_nat (length (pending (self w)))
    = Z.of_nat n - Z.min (Z.of_nat n) (effective_size (size group)).
Proof.
  intros Hu. cbv zeta.
  destruct (enters_fill_from n (fresh group lid)) as (H1 & H2 & _ & _).
  - exact Hu.
  - reflexivity.
  - cbn. unfold effective_size. destruct (_ =? 0); lia.
  - cbv zeta in *. rewrite H2, H1.
    change (size_of (fresh group lid)) with (size group).
    change (active (self (fresh group lid))) with 0.
    change (pending (self (fresh group lid))) with (@nil Future).
    cbn [length]. split; [f_equal; lia | lia].
Qed.

Lemma enters_fill_witness :
  active (self (final (calls (repeat CallEnter 3) (fresh optimistic_group 7))))
  = Z.min (Z.of_nat 3) (effective_size (size optimistic_group)).
Proof.
  apply (enters_fill 3 optimistic_group 7). vm_compute. discriminate.
Defined.

(** *** The room that wakeup gives out *)

(** X8: [wakeup()] releases waiters from the front of the queue and never
    more than there is room for: their number is at most the absolute value
    of the size minus the [active] callers and the allocations left in the
    ledger, and none is released when that is not positive. *)
Theorem wakeup_within_room (w : World) :
  let w' := final (wakeup w) in
  exists k : nat,
    released (trace w') = released (trace w) ++ firstn k (pending (self w)) /\
    pending (self w') = skipn k (pending (self w)) /\
    (k <= length (pending (self w)))%nat /\
    Z.of_nat k
    <= Z.max 0 (Z.abs (size_of w') - active (self w') - count_drops (self w')).
Proof.
  cbv zeta. destruct (queue (self w)) as [q|] eqn:Hq.
  - rewrite (wakeup_eq w q Hq). cbn [final].
    destruct (wakeup_world_frame w) as (F1 & F2 & F3 & F4 & F5 & _).
    cbv zeta in *.
    set (k := Z.to_nat _) in *. exists k.
    assert (Hp : pending (self (wakeup_world w)) = skipn k (pending (self w))).
    { unfold pending at 1. now rewrite F4. }
    rewrite count_drops_total, F1, F2, F3.
    repeat split; try assumption; unfold k; lia.
  - exists O.
    unfold wakeup. rewrite (bind_ok _ _ _ _ _ (wakeup_advance_eq w)).
    cbv zeta. rewrite wakeup_release_none by exact Hq.
    cbn [final self trace]. rewrite released_app.
    unfold pending. cbn. rewrite Hq.
    repeat split; try lia.
    destruct (advance (drops (self w))); cbn; now rewrite !app_nil_r.
Qed.

(** *** Headers without a limit on a size that is no estimate *)

(** X9: on a handler whose size is not negative, [exit(headers)] with
    headers that carry no explicit limit does what [exit(None)] does: it
    records no cooldown, discards the first node of the ledger and runs
    [wakeup()]. *)
Theorem exit_unlimited_headers (headers : Headers) (now1 now2 : Q)
    (w : World) :
  RATELIMIT_LIMIT headers = None ->
  0 <= size_of w ->
  exit (Some headers) now1 w = exit None now2 w /\
  chain (drops (self (final (exit (Some headers) now1 w))))
    = tl (chain (drops (self w))).
Proof.
  intros Hl Hs.
  assert (E : exit (Some headers) now1 w = exit None now2 w).
  { unfold exit. rewrite Hl.
    replace (size_of w <? 0) with false in *
      by (symmetry; now apply Z.ltb_ge).
    unfold bind at 1 3, read at 1 3, gets. fold (size_of w).
    replace (size_of w <? 0) with false by (symmetry; now apply Z.ltb_ge).
    reflexivity. }
  split; [exact E|]. rewrite E.
  unfold exit. unfold bind at 1, read at 1, gets. fold (size_of w).
  replace (size_of w =? UNLIMITED_SIZE_VALUE) with false
    by (symmetry; apply Z.eqb_neq; unfold UNLIMITED_SIZE_VALUE; lia).
  unfold bind at 1, read at 1, gets. unfold bind at 1, assign at 1, modify.
  set (w1 := with_self _ w).
  change (drops (self w)) with (drops (self w1)).
  assert (K : forall v, chain (drops (self (final (exit_wakeup v))))
                        = tl (chain (drops (self v)))).
  { intros [[p lid dr act qu wk] futs tr]. unfold exit_wakeup.
    assert (W : forall v, chain (drops (self (final (wakeup v))))
                          = tl (chain (drops (self v)))).
    { intros v. unfold wakeup.
      rewrite (bind_ok _ _ _ _ _ (wakeup_advance_eq v)). cbv zeta.
      assert (K2 : keeps_slot drops wakeup_release).
      { unfold wakeup_release, queue_len. slots.
        apply slot_free_waiters. reflexivity. }
      rewrite K2. cbn. apply chain_advance. }
    destruct wk as [t|]; cbn -[wakeup]; rewrite W; reflexivity. }
  apply K.
Qed.

Lemma exit_unlimited_headers_witness :
  exit (Some no_limit) 0 unset_with_waiter = exit None 1 unset_with_waiter.
Proof.
  apply (exit_unlimited_headers no_limit 0 1 unset_with_waiter).
  - reflexivity.
  - vm_compute. discriminate.
Defined.

(** *** The context of a request *)

Lemma on_parent_final {A} (m : M World A) (s : CtxWorld) :
  final (on_parent m s) = mkCtx (final (m (ctx_parent s))) (exited s).
Proof. unfold on_parent. now destruct (m (ctx_parent s)). Qed.

Lemma ctx_exit_final (headers : option Headers) (now : Q) (s : CtxWorld) :
  final (ctx_exit headers now s)
  = mkCtx (final (exit headers now (ctx_parent s))) true.
Proof.
  unfold ctx_exit, bind, set_exited, modify.
  now rewrite on_parent_final.
Qed.

Lemma ctx___exit___final (now : Q) (s : CtxWorld) :
  final (ctx___exit__ now s) =
    if exited s then s
    else mkCtx (final (exit None now (ctx_parent s))) true.
Proof.
  unfold ctx___exit__, bind, gets. destruct (exited s) eqn:E; [reflexivity|].
  unfold set_exited, modify. now rewrite on_parent_final.
Qed.

Lemma with_ctx_final (b : Body) (now : Q) (s : CtxWorld) :
  final (with_ctx b now s)
  = final (ctx___exit__ now (final (run_body b now s))).
Proof.
  unfold with_ctx. destruct (run_body b now s) as [[] s'|e s']; cbn [final].
  - reflexivity.
  - now destruct (ctx___exit__ now s').
Qed.

(** X10: the statement [with handler.ctx() as lock:] makes the handler's
    [exit] run exactly once, however its body ends: when the body called
    [lock.exit(headers)] (also when that raised) the handler is left as that
    one [exit(headers)] left it, and when the body ended or raised without,
    as [exit(None)] leaves it. So the block takes exactly one from [active]
    on a handler that is not unlimited. *)
Theorem with_ctx_exits_once (b : Body) (now : Q) (w : World) :
  let s := final (with_ctx b now (ctx w)) in
  exited s = true /\
  ctx_parent s =
    match b with
    | BodyExits headers => final (exit headers now w)
    | _ => final (exit None now w)
    end /\
  (size_of w <> UNLIMITED_SIZE_VALUE ->
     active (self (ctx_parent s)) = active (self w) - 1) /\
  final (ctx___exit__ now s) = s.
Proof.
  cbv zeta. rewrite with_ctx_final.
  assert (E : final (ctx___exit__ now (final (run_body b now (ctx w)))) =
              mkCtx match b with
                    | BodyExits headers => final (exit headers now w)
                    | _ => final (exit None now w)
                    end true).
  { destruct b as [headers| |e]; cbn [run_body].
    - rewrite ctx_exit_final, ctx___exit___final. reflexivity.
    - rewrite ctx___exit___final. reflexivity.
    - rewrite ctx___exit___final. reflexivity. }
  rewrite E. cbn [exited ctx_parent].
  split; [reflexivity|]. split; [reflexivity|]. split.
  - intros Hu. destruct b; now apply exit_active.
  - now rewrite ctx___exit___final.
Qed.

Lemma with_ctx_exits_once_witness :
  active (self (ctx_parent
     (final (with_ctx (BodyRaises KeyError) 0 (ctx one_queued)))))
  = active (self one_queued) - 1.
Proof.
  apply (with_ctx_exits_once (BodyRaises KeyError) 0 one_queued).
  vm_compute. discriminate.
Defined.

(** *** Descriptors and identity *)

Lemma make_groups_ids (args : list (Limiter * bool)) :
  forall c : Z,
    exists groups,
      make_groups args c = Ok groups (c + 1792 * Z.of_nat (length args)) /\
      map group_id groups
        = map (fun i => c + 1792 * Z.of_nat i) (seq 0 (length args)) /\
      map (fun g : RatelimitGroup => (limiter g, size g)) groups
        = map (fun a : Limiter * bool => (fst a, if snd a then -1 else 0)) args.
Proof.
  induction args as [|[lm o] args IH]; intros c.
  - exists []. split; [|split; reflexivity].
    unfold make_groups, ret. f_equal. cbn [length]. lia.
  - destruct (IH (c + 1792)) as (groups & H1 & H2 & H3).
    exists (mkGroup c lm (if o then -1 else 0) :: groups).
    cbn [make_groups]. unfold bind at 1. unfold RatelimitGroup_new at 1.
    change (Z.shiftl 7 8) with 1792.
    unfold bind at 1. rewrite H1. unfold ret.
    split; [f_equal; cbn [length]; lia|]. split.
    + cbn [map length seq group_id]. f_equal; [lia|].
      rewrite H2, <- seq_shift, map_map. apply map_ext. intros i. lia.
    + cbn [map]. now rewrite H3.
Qed.

(** X11: the groups that successive calls [RatelimitGroup(...)] make have
    the ids [c], [c + 1792], [c + 2 * 1792], ... from the counter [c] on, so
    no two of them share an id; from the counter's start 26880 none has the
    id 0 of the unlimited group; and each has the limiter it was given and
    the size [-1] if optimistic, else [0]. *)
Theorem group_ids_distinct (args : list (Limiter * bool)) (c : Z) :
  exists groups,
    make_groups args c = Ok groups (c + 1792 * Z.of_nat (length args)) /\
    map group_id groups
      = map (fun i => c + 1792 * Z.of_nat i) (seq 0 (length args)) /\
    NoDup (map group_id groups) /\
    (c = auto_next_id_start ->
       Forall (fun g => group_id g <> group_id unlimited) groups) /\
    map (fun g : RatelimitGroup => (limiter g, size g)) groups
      = map (fun a : Limiter * bool => (fst a, if snd a then -1 else 0)) args.
Proof.
  destruct (make_groups_ids args c) as (groups & H1 & H2 & H3).
  exists groups. split; [exact H1|]. split; [exact H2|]. split; [|split].
  - rewrite H2. apply Injective_map_NoDup; [|apply seq_NoDup].
    intros i j Hij. lia.
  - intros ->. apply Forall_forall. intros g Hg.
    assert (Hin : In (group_id g) (map group_id groups)) by now apply in_map.
    rewrite H2 in Hin. apply in_map_iff in Hin. destruct Hin as (i & Hi & _).
    rewrite <- Hi. unfold auto_next_id_start, unlimited. cbn [group_id].
    change (Z.shiftl 105 8) with 26880. lia.
  - exact H3.
Qed.

Lemma group_ids_distinct_witness :
  exists groups,
    make_groups [(LIMITER_CHANNEL, false); (LIMITER_GUILD, true)]
                auto_next_id_start
      = Ok groups (auto_next_id_start + 1792 * 2) /\
    Forall (fun g => group_id g <> group_id unlimited) groups.
Proof.
  destruct (group_ids_distinct
              [(LIMITER_CHANNEL, false); (LIMITER_GUILD, true)]
              auto_next_id_start) as (groups & H1 & _ & _ & H4 & _).
  exists groups. split; [exact H1 | apply H4; reflexivity].
Defined.

(** X12: [__eq__] of handlers is an equivalence, [__ne__] is its negation,
    equal handlers have equal hashes, and [copy] gives a handler equal to
    the original, with the same hash, that is idle (false as a truth
    value), as a new handler is. *)
Theorem handler_identity (h1 h2 h3 : RatelimitHandler)
    (group : RatelimitGroup) (lid : Z) :
  handler_eqb h1 h1 = true /\
  handler_eqb h1 h2 = handler_eqb h2 h1 /\
  (handler_eqb h1 h2 = true -> handler_eqb h2 h3 = true ->
     handler_eqb h1 h3 = true) /\
  handler_neb h1 h2 = negb (handler_eqb h1 h2) /\
  (handler_eqb h1 h2 = true ->
     RatelimitHandler_hash h1 = RatelimitHandler_hash h2) /\
  handler_eqb (copy h1) h1 = true /\
  RatelimitHandler_hash (copy h1) = RatelimitHandler_hash h1 /\
  RatelimitHandler_bool (copy h1) = false /\
  RatelimitHandler_bool (RatelimitHandler_init group lid) = false.
Proof.
  unfold handler_eqb, handler_neb, RatelimitHandler_hash.
  repeat split.
  - now rewrite !Z.eqb_refl.
  - now rewrite (Z.eqb_sym (limiter_id h1)),
      (Z.eqb_sym (group_id (parent h1))).
  - destruct (limiter_id h1 =? limiter_id h2) eqn:E1; [|discriminate].
    destruct (group_id (parent h1) =? group_id (parent h2)) eqn:E2;
      [|discriminate].
    apply Z.eqb_eq in E1. apply Z.eqb_eq in E2. now rewrite E1, E2.
  - destruct (limiter_id h1 =? limiter_id h2); [|reflexivity].
    now destruct (group_id (parent h1) =? group_id (parent h2)).
  - destruct (limiter_id h1 =? limiter_id h2) eqn:E1; [|discriminate].
    destruct (group_id (parent h1) =? group_id (parent h2)) eqn:E2;
      [|discriminate].
    apply Z.eqb_eq in E1. apply Z.eqb_eq in E2. intros _. lia.
  - cbn. now rewrite !Z.eqb_refl.
Qed.

Lemma handler_identity_witness :
  RatelimitHandler_hash (self one_queued)
  = RatelimitHandler_hash (copy (self one_queued)).
Proof.
  destruct (handler_identity (self one_queued) (copy (self one_queued))
              (self one_queued) optimistic_group 7)
    as (_ & _ & _ & _ & H & _).
  apply H. reflexivity.
Defined.

(** *** What changes the size, and what the ledger goes through *)

(** X17: only [exit] changes the size of the descriptor, and the size it
    leaves depends on the headers and on the size before alone, not on the
    queue, the ledger or [active], and is the same when [exit] raises on the
    way: the explicit limit if the headers carry one, one further from zero
    for an estimate between the cap [-50] and zero when they do not, the size
    before in every other case. [enter] and [wakeup] leave the size alone. *)
Theorem size_changes_in_exit_only (headers : option Headers) (now : Q)
    (w : World) :
  size_of (final (exit headers now w)) = size_after_exit headers (size_of w) /\
  size_of (final (enter w)) = size_of w /\
  size_of (final (enter_resumed w)) = size_of w /\
  size_of (final (wakeup w)) = size_of w.
Proof.
  split; [apply exit_size|]. split; [apply keeps_enter|].
  split; [apply keeps_enter_resumed | apply keeps_wakeup].
Qed.











End HandlerMoreFacts.

(** ** More on the proxy *)

Module ProxyMoreFacts.
Import Handler HandlerSpec Proxy ProxyMore.

Lemma lookup_app_found (a : Addr) (h : RatelimitHandler)
    (l l' : list (Addr * RatelimitHandler)) :
  lookup a l = Some h -> lookup a (l ++ l') = Some h.
Proof.
  induction l as [|[b x] l IH]; cbn; [discriminate|].
  destruct (Nat.eqb a b); auto.
Qed.

Lemma lookup_app_fresh (a : Addr) (h : RatelimitHandler)
    (l : list (Addr * RatelimitHandler)) :
  lookup a l = None -> lookup a (l ++ [(a, h)]) = Some h.
Proof.
  induction l as [|[b x] l IH]; cbn.
  - now rewrite Nat.eqb_refl.
  - destruct (Nat.eqb a b); [discriminate | auto].
Qed.

Lemma lookup_app_other (a b : Addr) (h : RatelimitHandler)
    (l : list (Addr * RatelimitHandler)) :
  a <> b -> lookup a (l ++ [(b, h)]) = lookup a l.
Proof.
  intros Hab. induction l as [|[c x] l IH]; cbn.
  - apply Nat.eqb_neq in Hab. now rewrite Hab.
  - destruct (Nat.eqb a c); auto.
Qed.

Lemma new_proxy_limiter_id (group : RatelimitGroup) (scope : Scope)
    (m : Memory) (lid : Z) :
  deref m (next_addr m) = None ->
  resolve_limiter_id group scope m = Ok lid m ->
  resolved group scope m
  = inr (Some (limiter_id (RatelimitHandler_init group lid))).
Proof.
  intros Hf Hr. unfold resolved, RatelimitProxy_new.
  rewrite (bind_ok _ _ _ _ _ Hr). unfold bind, allocate, ret.
  unfold proxy_limiter_id, deref in *. cbn.
  now rewrite (lookup_app_fresh _ _ _ Hf).
Qed.

Ltac resolves_to lid :=
  match goal with
  | |- resolved ?g ?sc ?m = _ =>
      rewrite (new_proxy_limiter_id g sc m lid);
      [reflexivity | assumption | reflexivity]
  end.

(** X13: what the construction of a proxy makes of the object it is given:
    for a globally limited group the fixed id [GLOBALLY_LIMITED] and for an
    unlimited group [0], whatever the object; for a group limited by
    channel the id of a channel or of the channel of a message, and a
    [ValueError] for anything else; for a group limited by webhook the id of
    a webhook or webhook representation, and a [ValueError] for anything
    else; and a [RuntimeError] when the group's limiter is none of the five. *)
Theorem proxy_scope_resolution (gid sz : Z) (scope : Scope) (m : Memory) :
  deref m (next_addr m) = None ->
  resolved (mkGroup gid LIMITER_GLOBAL sz) scope m
    = inr (Some GLOBALLY_LIMITED) /\
  resolved (mkGroup gid LIMITER_UNLIMITED sz) scope m = inr (Some 0) /\
  resolved (mkGroup gid LIMITER_CHANNEL sz) scope m =
    match scope with
    | Channel id _ => inr (Some id)
    | Message _ channel_id _ => inr (Some channel_id)
    | _ => inl ValueError
    end /\
  resolved (mkGroup gid LIMITER_WEBHOOK sz) scope m =
    match scope with
    | Webhook id _ | WebhookRepr id _ => inr (Some id)
    | _ => inl ValueError
    end /\
  resolved (mkGroup gid LIMITER_other sz) scope m = inl RuntimeError.
Proof.
  intros Hf. repeat split.
  - resolves_to GLOBALLY_LIMITED.
  - resolves_to 0.
  - destruct scope as [id|id g|id ch g|id g|id g|id g|]; try reflexivity.
    + resolves_to id.
    + resolves_to ch.
  - destruct scope as [id|id g|id ch g|id g|id g|id g|]; try reflexivity.
    + resolves_to id.
    + resolves_to id.
Qed.

Lemma proxy_scope_resolution_witness :
  resolved (mkGroup 26880 LIMITER_CHANNEL 0) (Message 3 7 (Some 42))
           empty_memory
  = inr (Some 7).
Proof.
  apply (proxy_scope_resolution 26880 0 (Message 3 7 (Some 42)) empty_memory).
  reflexivity.
Defined.

Lemma free_count_eq (s : ProxyWorld) :
  size (group (proxy s)) <> UNLIMITED_SIZE_VALUE ->
  free_count s =
    (handler <- handler ;;
     match handler with
     | None => ret (effective_size (size (group (proxy s))))
     | Some handler =>
         ret (effective_size (size (group (proxy s)))
              - active handler - count_drops handler)
     end) s.
Proof.
  intros Hu. unfold free_count. unfold bind at 1, gets. cbv zeta.
  unfold effective_size. set (sz := size (group (proxy s))) in *.
  destruct (sz <? 1) eqn:E1.
  - destruct (sz =? 0) eqn:E2; [reflexivity|].
    apply Z.eqb_neq in Hu. rewrite Hu. apply Z.ltb_lt in E1.
    replace (Z.abs sz) with (- sz) by lia. reflexivity.
  - apply Z.ltb_ge in E1.
    destruct (sz =? 0) eqn:E2; [apply Z.eqb_eq in E2; lia|].
    replace (Z.abs sz) with sz by lia. reflexivity.
Qed.

(** X14: for a group that is not unlimited, [free_count] is the effective
    size of the group minus [used_count], and the effective size itself when
    no handler is found; for an unlimited group it is [0], and the handler is
    not even looked up. *)
Theorem free_and_used (s : ProxyWorld) :
  (size (group (proxy s)) = UNLIMITED_SIZE_VALUE -> free_count s = Ok 0 s) /\
  (size (group (proxy s)) <> UNLIMITED_SIZE_VALUE ->
     match used_count s with
     | Ok used s' =>
         handler s = Ok None s' /\
         free_count s = Ok (effective_size (size (group (proxy s)))) s'
         \/
         (exists h, handler s = Ok (Some h) s') /\
         free_count s
           = Ok (effective_size (size (group (proxy s))) - used) s'
     | Raised e s' => free_count s = Raised e s'
     end).
Proof.
  split.
  - intros Hu. unfold free_count, bind, gets. rewrite Hu. reflexivity.
  - intros Hu. rewrite (free_count_eq s Hu). unfold used_count, bind.
    destruct (handler s) as [[h|] s'|e s']; unfold ret.
    + right. split; [now exists h|]. f_equal. lia.
    + left. split; reflexivity.
    + reflexivity.
Qed.

Lemma free_and_used_witness :
  match used_count cooling_proxy with
  | Ok used s' =>
      handler cooling_proxy = Ok None s' /\
      free_count cooling_proxy = Ok 5 s'
      \/
      (exists h, handler cooling_proxy = Ok (Some h) s') /\
      free_count cooling_proxy = Ok (5 - used) s'
  | Raised e s' => free_count cooling_proxy = Raised e s'
  end.
Proof.
  apply (proj2 (free_and_used cooling_proxy)). vm_compute. discriminate.
Defined.

Lemma handlers_get_alive (m : Memory) (key : RatelimitHandler) (b : Addr) :
  handlers_get m key = Some b -> deref m b <> None.
Proof.
  unfold handlers_get. intros H. apply find_some in H. destruct H as [_ H].
  destruct (deref m b); [discriminate | discriminate].
Qed.

(** Once [_handler] refers to the live object that [_key] is, the proxy is
    kept alive and cannot wait for its limits to expire. *)
Lemma pinned (g : RatelimitGroup) (a : Addr) (m : Memory) :
  deref m a <> None ->
  let s := mkProxyWorld (mkProxy (Some a) a g) m in
  get_keep_alive s = Ok true s /\
  wait_till_limits_expire s = Raised RuntimeError s.
Proof.
  intros Ha. cbv zeta.
  unfold get_keep_alive, wait_till_limits_expire, bind, gets, call_ref, ret,
    raise.
  cbn. destruct (deref m a); [|contradiction].
  cbn [_key proxy]. now rewrite !Nat.eqb_refl.
Qed.

Lemma handlers_set_alive (key : Addr) (m : Memory) :
  deref m key <> None ->
  (forall b, deref m b <> None -> (b < next_addr m)%nat) ->
  exists a m',
    handlers_set key m = Ok a m' /\
    deref m' a <> None /\
    (forall b, deref m' b <> None -> (b < next_addr m')%nat).
Proof.
  intros Hk Hw. unfold handlers_set.
  destruct (deref m key) as [k|] eqn:Ek; [|contradiction].
  destruct (handlers_get m k) as [b|] eqn:Eb.
  - exists b, m. split; [reflexivity|].
    split; [eapply handlers_get_alive; exact Eb | exact Hw].
  - exists key, (mkMemory (heap m) (handlers m ++ [key]) (next_addr m)).
    split; [reflexivity|].
    split; [unfold deref in *; cbn; now rewrite Ek | exact Hw].
Qed.

(** The end of the setter when the reference gives no live handler. *)
Lemma set_keep_alive_registers (hd : option Addr) (key : Addr)
    (g : RatelimitGroup) (m : Memory) :
  deref m key <> None ->
  (forall b, deref m b <> None -> (b < next_addr m)%nat) ->
  exists a m',
    (key <- gets (fun s => _key (proxy s)) ;;
     handler <- in_memory (handlers_set key) ;;
     (if negb (Nat.eqb handler key) then set__key handler else ret tt) ;;;
     set__handler (Some handler))
      (mkProxyWorld (mkProxy hd key g) m)
    = Ok tt (mkProxyWorld (mkProxy (Some a) a g) m') /\
    deref m' a <> None /\
    (forall b, deref m' b <> None -> (b < next_addr m')%nat).
Proof.
  intros Hk Hw.
  destruct (handlers_set_alive key m Hk Hw) as (a & m' & H1 & H2 & H3).
  exists a, m'. split; [|split; assumption].
  unfold bind at 1, gets. cbn [_key proxy]. unfold bind at 1.
  unfold in_memory. cbn [memory proxy]. rewrite H1.
  destruct (Nat.eqb a key) eqn:E; cbn; [|reflexivity].
  apply Nat.eqb_eq in E. now subst a.
Qed.

Lemma set_keep_alive_true (s : ProxyWorld) :
  well_formed s ->
  exists a m,
    set_keep_alive true s
      = Ok tt (mkProxyWorld (mkProxy (Some a) a (group (proxy s))) m) /\
    deref m a <> None /\
    (forall b, deref m b <> None -> (b < next_addr m)%nat).
Proof.
  destruct s as [[hd key g] m]. intros [Hw1 Hw2]. cbn in Hw1, Hw2.
  cbn [group proxy]. unfold set_keep_alive.
  unfold bind at 1, gets. cbn [_handler proxy].
  destruct hd as [a|].
  - unfold bind at 1, call_ref, gets. cbn [memory].
    destruct (deref m a) eqn:Ea.
    + exists a, m. split; [|split; [now rewrite Ea | exact Hw1]].
      unfold bind, gets. cbn [_key proxy].
      destruct (Nat.eqb key a) eqn:E; cbn; [|reflexivity].
      apply Nat.eqb_eq in E. now subst a.
    + now apply set_keep_alive_registers.
  - unfold bind at 1, ret. now apply set_keep_alive_registers.
Qed.

Lemma set_keep_alive_false_eq (hd : option Addr) (key : Addr)
    (g : RatelimitGroup) (m : Memory) :
  set_keep_alive false (mkProxyWorld (mkProxy hd key g) m) =
    Ok tt
      match hd with
      | Some a =>
          match deref m a with
          | Some obj =>
              if Nat.eqb key a then
                mkProxyWorld (mkProxy hd (next_addr m) g)
                  (mkMemory (heap m ++ [(next_addr m, copy obj)])
                            (handlers m) (S (next_addr m)))
              else mkProxyWorld (mkProxy hd key g) m
          | None => mkProxyWorld (mkProxy hd key g) m
          end
      | None => mkProxyWorld (mkProxy hd key g) m
      end.
Proof.
  unfold set_keep_alive. unfold bind at 1, gets. cbn [_handler proxy].
  destruct hd as [a|]; [|reflexivity].
  unfold bind at 1, call_ref, gets. cbn [memory].
  destruct (deref m a) as [obj|] eqn:Ea; [|reflexivity].
  unfold bind at 1, gets. cbn [_key proxy].
  destruct (Nat.eqb key a) eqn:E; [|reflexivity].
  unfold bind at 1, gets. cbn [memory]. rewrite Ea. reflexivity.
Qed.

Lemma get_keep_alive_eq (hd : option Addr) (key : Addr)
    (g : RatelimitGroup) (m : Memory) :
  get_keep_alive (mkProxyWorld (mkProxy hd key g) m) =
    Ok match hd with
       | Some a =>
           match deref m a with
           | Some _ => Nat.eqb a key
           | None => false
           end
       | None => false
       end
       (mkProxyWorld (mkProxy hd key g) m).
Proof.
  unfold get_keep_alive. unfold bind at 1, gets. cbn [_handler proxy].
  destruct hd as [a|]; [|reflexivity].
  unfold bind at 1, call_ref, gets. cbn [memory].
  destruct (deref m a); reflexivity.
Qed.

Lemma set_keep_alive_false (s : ProxyWorld) :
  well_formed s ->
  exists s0,
    set_keep_alive false s = Ok tt s0 /\
    get_keep_alive s0 = Ok false s0 /\
    well_formed s0.
Proof.
  destruct s as [[hd key g] m]. intros [Hw1 Hw2]. cbn in Hw1, Hw2.
  rewrite set_keep_alive_false_eq. eexists. split; [reflexivity|].
  destruct hd as [a|]; [|rewrite get_keep_alive_eq; repeat split; assumption].
  destruct (deref m a) as [obj|] eqn:Ea.
  - destruct (Nat.eqb key a) eqn:E.
    + apply Nat.eqb_eq in E. subst a.
      assert (Hlt : (key < next_addr m)%nat) by (apply Hw1; now rewrite Ea).
      assert (Hnew : deref m (next_addr m) = None).
      { destruct (deref m (next_addr m)) eqn:En; [|reflexivity].
        assert ((next_addr m < next_addr m)%nat)
          by (apply Hw1; now rewrite En).
        lia. }
      rewrite get_keep_alive_eq. unfold well_formed, deref in *. cbn.
      rewrite (lookup_app_found _ _ _ _ Ea).
      replace (Nat.eqb key (next_addr m)) with false
        by (symmetry; apply Nat.eqb_neq; lia).
      split; [reflexivity|]. split.
      * intros b Hb.
        destruct (Nat.eq_dec b (next_addr m)) as [->|Hne]; [lia|].
        rewrite lookup_app_other in Hb by exact Hne.
        apply Hw1 in Hb. lia.
      * now rewrite (lookup_app_fresh _ _ _ Hnew).
    + rewrite get_keep_alive_eq, Ea, Nat.eqb_sym, E.
      repeat split; assumption.
  - rewrite get_keep_alive_eq, Ea. repeat split; assumption.
Qed.

(** X15: setting [keep_alive] and reading it back agree. After
    [proxy.keep_alive = True] the property reads [True], the proxy's key is
    the live shared handler its reference names, and
    [wait_till_limits_expire] raises a [RuntimeError]; after
    [proxy.keep_alive = False] the property reads [False], whatever the
    proxy held before. *)
Theorem keep_alive_round_trip (s : ProxyWorld) :
  well_formed s ->
  (exists s1,
     set_keep_alive true s = Ok tt s1 /\
     get_keep_alive s1 = Ok true s1 /\
     _handler (proxy s1) = Some (_key (proxy s1)) /\
     wait_till_limits_expire s1 = Raised RuntimeError s1 /\
     well_formed s1) /\
  (exists s0,
     set_keep_alive false s = Ok tt s0 /\
     get_keep_alive s0 = Ok false s0 /\
     well_formed s0).
Proof.
  intros Hw. split; [|now apply set_keep_alive_false].
  destruct (set_keep_alive_true s Hw) as (a & m & H1 & H2 & H3).
  destruct (pinned (group (proxy s)) a m H2) as [P1 P2]. cbv zeta in *.
  eexists. split; [exact H1|]. split; [exact P1|]. split; [reflexivity|].
  split; [exact P2|]. split; assumption.
Qed.

Lemma keep_alive_round_trip_witness :
  exists s0,
    set_keep_alive false cooling_proxy = Ok tt s0 /\
    get_keep_alive s0 = Ok false s0 /\
    well_formed s0.
Proof.
  apply (keep_alive_round_trip cooling_proxy). split.
  - intros a Ha. cbn in *.
    destruct a as [|a]; [lia | cbn in Ha; contradiction].
  - cbn. discriminate.
Defined.

End ProxyMoreFacts.

(** ** The global lock *)

Module SessionFacts.
Import Session.

Lemma ratelimit_global_held (retry_after : Q) (s : SessionWorld) (f : nat) :
  global_lock s = Some f -> ratelimit_global retry_after s = Ok f s.
Proof. intros H. unfold ratelimit_global, bind, gets. now rewrite H. Qed.

Lemma ratelimit_globals_held (retries : list Q) (s : SessionWorld) (f : nat) :
  global_lock s = Some f ->
  ratelimit_globals retries s = Ok (repeat f (length retries)) s.
Proof.
  intros H. induction retries as [|r retries IH]; [reflexivity|].
  cbn [ratelimit_globals]. unfold bind.
  rewrite (ratelimit_global_held r s f H), IH. reflexivity.
Qed.

(** X16: while no global lock is held, [ratelimit_global] makes one future,
    gives it the canceller, stores it as the session's lock and schedules
    its result once; every further call, whatever its [retry_after], returns
    that same future and asks nothing more of the loop; once the canceller
    has run, the next call makes a new future. *)
Theorem global_lock_shared (retry_after later : Q) (retries : list Q)
    (s : SessionWorld) :
  global_lock s = None ->
  let f := made s in
  let s1 := mkSession (Some f) (S (made s))
              (asked s ++ [AddCanceller f; CallLater retry_after f]) in
  ratelimit_global retry_after s = Ok f s1 /\
  ratelimit_globals retries s1 = Ok (repeat f (length retries)) s1 /\
  (exists s2,
     global_lock_canceller s1 = Ok tt s2 /\
     global_lock s2 = None /\
     exists s3, ratelimit_global later s2 = Ok (S f) s3 /\
                global_lock s3 = Some (S f)).
Proof.
  intros H. cbv zeta. split; [|split].
  - unfold ratelimit_global, bind, gets, modify, ret. rewrite H. cbn.
    now rewrite <- app_assoc.
  - now apply ratelimit_globals_held.
  - eexists. split; [reflexivity|]. split; [reflexivity|].
    eexists. split; reflexivity.
Qed.

Lemma global_lock_shared_witness :
  ratelimit_globals [1%Q; 2%Q; 3%Q]
    (mkSession (Some 0%nat) 1 [AddCanceller 0; CallLater 5 0])
  = Ok [0; 0; 0]%nat
       (mkSession (Some 0%nat) 1 [AddCanceller 0; CallLater 5 0]).
Proof.
  apply (global_lock_shared 5 7 [1%Q; 2%Q; 3%Q] (mkSession None 0 [])).
  reflexivity.
Defined.

End SessionFacts.
